(** * svelete-ui: the DOM-behaviour actions and [formatTime]

    A shallow embedding of the three Svelte actions of the repository
    ([clickOutside], [longpress], [tooltip]) and of the [formatTime] utility,
    together with the properties the specification states about them.

    Each module embeds one source file.  The browser objects the actions
    touch (the listener list of an event target, the timer table of the
    window, the inline style of the node, the tippy.js library) are explicit
    state; the closure variables of an action ([timer], [ms], [instance])
    are fields of the state of its attachment. *)

From Stdlib Require Import ZArith QArith Qround Lia List Sorted.
From Stdlib Require Import String DecimalString DecimalN DecimalPos.
From stdpp Require Import base list strings gmap.
Import ListNotations.

Local Open Scope string_scope.
Local Open Scope Z_scope.

(* ===================================================================== *)
(** ** [formatTime]  (src/lib/utils/formatTime.ts) *)
(* ===================================================================== *)

Module FormatTime.

(** A JavaScript [number].  A finite double is a rational; the three
    non-finite values are kept apart.  Negative zero is not distinguished
    from zero: [-0 < 0] is false and [-0] prints as ["0"], so the function
    treats both alike.  Arithmetic on finite values is exact here: the
    quotient of [/] is not rounded to a double.  On the whole numbers of
    seconds up to [Number.MAX_SAFE_INTEGER], to which the properties of the
    quotient below are bound, the rounded quotient has the same
    [Math.floor] as the exact one; [%] is exact on doubles. *)
Inductive number : Type :=
| NaN
| Infinity (negative : bool)
| Finite (q : Q).

(** [Number.isFinite]. *)
Definition isFinite (n : number) : bool :=
  match n with
  | Finite _ => true
  | _ => false
  end.

(** [n < 0] with the comparison rules of JavaScript: any comparison with
    [NaN] is false. *)
Definition lt_zero (n : number) : bool :=
  match n with
  | NaN => false
  | Infinity negative => negative
  | Finite q => negb (Qle_bool 0 q)
  end.

(** Rounding towards zero, the quotient [%] is defined with. *)
Definition Qtrunc (q : Q) : Z :=
  if Qle_bool 0 q then Qfloor q else Qceiling q.

(** [a % b] on finite numbers: the remainder has the sign of [a]. *)
Definition js_rem (a b : Q) : Q :=
  (a - b * inject_Z (Qtrunc (a / b)))%Q.

(** [a / b] for a finite non-zero divisor [b]. *)
Definition div (a : number) (b : Q) : number :=
  match a with
  | Finite q => Finite (q / b)
  | Infinity negative => Infinity (xorb negative (negb (Qle_bool 0 b)))
  | NaN => NaN
  end.

(** [a % b] for a finite non-zero divisor [b]: an infinite dividend has no
    remainder. *)
Definition rem (a : number) (b : Q) : number :=
  match a with
  | Finite q => Finite (js_rem q b)
  | _ => NaN
  end.

(** [Math.floor]. *)
Definition floor (a : number) : number :=
  match a with
  | Finite q => Finite (inject_Z (Qfloor q))
  | _ => a
  end.

(** The decimal digits of an integer, with a minus sign when negative. *)
Definition digits (z : Z) : string :=
  match z with
  | Zneg p => "-" ++ NilZero.string_of_uint (Pos.to_uint p)
  | _ => NilZero.string_of_uint (N.to_uint (Z.to_N z))
  end.

(** Whether a finite number is an integer that a [number] holds exactly,
    at most [Number.MAX_SAFE_INTEGER] in magnitude. *)
Definition is_safe_integer (q : Q) : bool :=
  Qeq_bool (inject_Z (Qfloor q)) q
  && (Z.abs (Qfloor q) <=? 9007199254740991).

Fixpoint repeat_string (n : nat) (pad : string) : string :=
  match n with
  | O => ""
  | S k => pad ++ repeat_string k pad
  end.

(** [s.padStart(target, pad)] for a one-character [pad]. *)
Definition padStart (target : nat) (pad : string) (s : string) : string :=
  repeat_string (target - String.length s) pad ++ s.

Section Printing.

(** What JavaScript prints for a finite number that is not a safe integer:
    a decimal point and the digits of the fraction, or the exponent form;
    which digits is left open. *)
Variable print : Q -> string.

(** [Number.prototype.toString], which a template literal applies as well:
    a safe integer prints as its decimal digits. *)
Definition toString (a : number) : string :=
  match a with
  | NaN => "NaN"
  | Infinity negative => if negative then "-Infinity" else "Infinity"
  | Finite q => if is_safe_integer q then digits (Qfloor q) else print q
  end.

Definition formatTime (seconds : number) : string :=
  if negb (isFinite seconds) || lt_zero seconds then "0:00"
  else
    let mins := floor (div seconds 60) in
    let secs := floor (rem seconds 60) in
    toString mins ++ ":" ++ padStart 2 "0" (toString secs).

End Printing.

(** *** Vocabulary of the properties *)

(** The sixty values of the seconds field. *)
Definition fields : list string :=
  map (fun k => padStart 2 "0" (digits (Z.of_nat k))) (seq 0 60).

(** The whole numbers of seconds a [number] holds exactly, from 0 to
    [Number.MAX_SAFE_INTEGER]. *)
Definition whole_seconds (n : Z) : Prop := 0 <= n <= 9007199254740991.

End FormatTime.

(* ===================================================================== *)
(** ** [longpress]  (src/lib/actions/longpress.svelte.ts) *)
(* ===================================================================== *)

Module Longpress.

(** The four event types the action listens to. *)
Inductive EventType : Type :=
| pointerdown
| pointerup
| pointercancel
| pointerleave.

#[global] Instance EventType_eq_dec : EqDecision EventType.
Proof. solve_decision. Defined.

(** The part of a [PointerEvent] the action reads. *)
Record PointerEvent : Type := { pointerType : string }.

(** [LongpressParams]: [ms] is optional. *)
Record LongpressParams : Type := { ms : option Z }.

(** [new CustomEvent(type, { detail: { pointerType } })]. *)
Record CustomEvent : Type := { type : string; detail_pointerType : string }.

(** The two listener functions the action creates. *)
Inductive Listener : Type :=
| start_listener
| stop_listener.

#[global] Instance Listener_eq_dec : EqDecision Listener.
Proof. solve_decision. Defined.

(** An active timer of the window.  The only function the action hands to
    [window.setTimeout] is the arrow function of [start], which captures the
    event [e] of the press; [delay] is the second argument as passed and
    [due] the time from which the timer may fire. *)
Record Timeout : Type := {
  id : nat;
  delay : Z;
  due : Z;
  captured : PointerEvent
}.

(** The state of one attachment: the browser objects it touches and its two
    closure variables. *)
Record State : Type := {
  now : Z;                                  (* the clock, in ms *)
  timeouts : list Timeout;                  (* active timers, oldest first *)
  next_id : nat;                            (* next timer id *)
  listeners : list (EventType * Listener);  (* listener list of [node] *)
  userSelect : string;                      (* [node.style.userSelect] *)
  dispatched : list CustomEvent;            (* events dispatched on [node] *)
  timer : option nat;                       (* [let timer] *)
  cur_ms : Z                                (* [let ms] *)
}.

Definition set_now (v : Z) (s : State) : State :=
  {| now := v; timeouts := timeouts s; next_id := next_id s;
     listeners := listeners s; userSelect := userSelect s;
     dispatched := dispatched s; timer := timer s; cur_ms := cur_ms s |}.

Definition set_timeouts (v : list Timeout) (s : State) : State :=
  {| now := now s; timeouts := v; next_id := next_id s;
     listeners := listeners s; userSelect := userSelect s;
     dispatched := dispatched s; timer := timer s; cur_ms := cur_ms s |}.

Definition set_next_id (v : nat) (s : State) : State :=
  {| now := now s; timeouts := timeouts s; next_id := v;
     listeners := listeners s; userSelect := userSelect s;
     dispatched := dispatched s; timer := timer s; cur_ms := cur_ms s |}.

Definition set_listeners (v : list (EventType * Listener)) (s : State) : State :=
  {| now := now s; timeouts := timeouts s; next_id := next_id s;
     listeners := v; userSelect := userSelect s;
     dispatched := dispatched s; timer := timer s; cur_ms := cur_ms s |}.

Definition set_userSelect (v : string) (s : State) : State :=
  {| now := now s; timeouts := timeouts s; next_id := next_id s;
     listeners := listeners s; userSelect := v;
     dispatched := dispatched s; timer := timer s; cur_ms := cur_ms s |}.

Definition set_dispatched (v : list CustomEvent) (s : State) : State :=
  {| now := now s; timeouts := timeouts s; next_id := next_id s;
     listeners := listeners s; userSelect := userSelect s;
     dispatched := v; timer := timer s; cur_ms := cur_ms s |}.

Definition set_timer (v : option nat) (s : State) : State :=
  {| now := now s; timeouts := timeouts s; next_id := next_id s;
     listeners := listeners s; userSelect := userSelect s;
     dispatched := dispatched s; timer := v; cur_ms := cur_ms s |}.

Definition set_ms (v : Z) (s : State) : State :=
  {| now := now s; timeouts := timeouts s; next_id := next_id s;
     listeners := listeners s; userSelect := userSelect s;
     dispatched := dispatched s; timer := timer s; cur_ms := v |}.

(** *** The platform *)

(** [window.setTimeout(callback, d)]: a negative delay counts as zero.  The
    platform first converts the delay to a 32-bit integer; that conversion
    is not part of this table, which keeps the delay as it is given. *)
Definition setTimeout (e : PointerEvent) (d : Z) (s : State) : nat * State :=
  let t := {| id := next_id s; delay := d; due := now s + Z.max 0 d;
              captured := e |} in
  (next_id s, set_next_id (S (next_id s)) (set_timeouts (timeouts s ++ [t]) s)).

(** [clearTimeout(t)]: an id that is not active is ignored. *)
Definition clearTimeout (t : nat) (s : State) : State :=
  set_timeouts (filter (fun x => id x ≠ t) (timeouts s)) s.

(** [node.addEventListener(ty, l)]: a listener already registered for the
    type is not added again. *)
Definition addEventListener (ty : EventType) (l : Listener) (s : State) : State :=
  if decide ((ty, l) ∈ listeners s) then s
  else set_listeners (listeners s ++ [(ty, l)]) s.

(** [node.dispatchEvent(ev)]. *)
Definition dispatchEvent (ev : CustomEvent) (s : State) : State :=
  set_dispatched (dispatched s ++ [ev]) s.

(** *** The action *)

Definition clear (s : State) : State :=
  let s := match timer s with
           | Some t => clearTimeout t s
           | None => s
           end in
  set_timer None s.

(** The arrow function handed to [setTimeout] in [start]. *)
Definition on_timeout (e : PointerEvent) (s : State) : State :=
  let s := dispatchEvent {| type := "longpress";
                            detail_pointerType := pointerType e |} s in
  clear s.

Definition start (e : PointerEvent) (s : State) : State :=
  let s := clear s in
  let s := set_userSelect "none" s in
  let '(t, s) := setTimeout e (cur_ms s) s in
  set_timer (Some t) s.

Definition stop (s : State) : State :=
  let s := set_userSelect "" s in
  clear s.

(** [params?.ms ?? 600]. *)
Definition ms_or_default (params : option LongpressParams) : Z :=
  match params with
  | Some p => match ms p with
              | Some v => v
              | None => 600
              end
  | None => 600
  end.

(** The body of [longpress(node, params)] up to the [return]: the closure
    variables are initialised and the four listeners registered. *)
Definition longpress (params : option LongpressParams) (s : State) : State :=
  let s := set_timer None s in
  let s := set_ms (ms_or_default params) s in
  let s := addEventListener pointerdown start_listener s in
  let s := addEventListener pointerup stop_listener s in
  let s := addEventListener pointercancel stop_listener s in
  addEventListener pointerleave stop_listener s.

(** The two methods of the returned object. *)
Definition update (next : option LongpressParams) (s : State) : State :=
  set_ms (ms_or_default next) s.

Definition destroy (s : State) : State :=
  let s := addEventListener pointerdown start_listener s in
  let s := addEventListener pointerup stop_listener s in
  let s := addEventListener pointercancel stop_listener s in
  addEventListener pointerleave stop_listener s.

(** *** Running a page *)

Definition call_listener (l : Listener) (e : PointerEvent) (s : State) : State :=
  match l with
  | start_listener => start e s
  | stop_listener => stop s
  end.

(** A pointer event of type [ty] reaches [node]: the listeners registered
    for [ty] run in registration order. *)
Definition fire (ty : EventType) (e : PointerEvent) (s : State) : State :=
  fold_left (fun s r => call_listener r.2 e s)
            (filter (fun r => r.1 = ty) (listeners s)) s.

(** The active timer that fires next: the one with the least due time, the
    oldest among equals. *)
Fixpoint earliest (l : list Timeout) : option Timeout :=
  match l with
  | [] => None
  | t :: l' =>
      match earliest l' with
      | Some u => if due u <? due t then Some u else Some t
      | None => Some t
      end
  end.

Definition next_due (s : State) : option Timeout :=
  match earliest (timeouts s) with
  | Some t => if due t <=? now s then Some t else None
  | None => None
  end.

(** Runs the timers that are due, one at a time; a timer leaves the table
    before its function runs. *)
Fixpoint run_timers (fuel : nat) (s : State) : State :=
  match fuel with
  | O => s
  | S k =>
      match next_due s with
      | Some t =>
          run_timers k (on_timeout (captured t) (clearTimeout (id t) s))
      | None => s
      end
  end.

(** [dt] milliseconds pass.  A timer function of the action starts no
    timer, so the number of active timers is fuel enough
    ([run_timers_complete] below). *)
Definition advance (dt : Z) (s : State) : State :=
  let s := set_now (now s + Z.max 0 dt) s in
  run_timers (length (timeouts s)) s.

(** What can happen to an attachment. *)
Inductive Step : Type :=
| Pointer (ty : EventType) (e : PointerEvent)
| Wait (dt : Z)
| Update (next : option LongpressParams)
| Destroy.

Definition step (s : State) (a : Step) : State :=
  match a with
  | Pointer ty e => fire ty e s
  | Wait dt => advance dt s
  | Update next => update next s
  | Destroy => destroy s
  end.

Definition run (l : list Step) (s : State) : State := fold_left step l s.

(** A page at time [t0] whose next timer id is [n0]: no timer is active,
    [node] has no listener and no inline [user-select]. *)
Definition page (t0 : Z) (n0 : nat) : State :=
  {| now := t0; timeouts := []; next_id := n0; listeners := [];
     userSelect := ""; dispatched := []; timer := None; cur_ms := 0 |}.

Definition mouse : PointerEvent := {| pointerType := "mouse" |}.
Definition touch : PointerEvent := {| pointerType := "touch" |}.

(** *** Vocabulary of the properties *)

(** A delay that the conversion of [setTimeout] to a 32-bit integer leaves
    as it is. *)
Definition timer_delay (d : Z) : Prop := -2147483648 <= d < 2147483648.

(** The listener list the action builds on a node without listeners. *)
Definition four_listeners : list (EventType * Listener) :=
  [(pointerdown, start_listener); (pointerup, stop_listener);
   (pointercancel, stop_listener); (pointerleave, stop_listener)].

Definition attached (s : State) : Prop := listeners s = four_listeners.

(** No press is in progress. *)
Definition idle (s : State) : Prop := timeouts s = [] ∧ timer s = None.

(** A press is in progress and [t] is its timer. *)
Definition pending (t : Timeout) (s : State) : Prop :=
  timeouts s = [t] ∧ timer s = Some (id t).

Definition tidy (s : State) : Prop := idle s ∨ ∃ t, pending t s.

(** The states an attachment goes through ([run_attachment] below). *)
Definition attachment (s : State) : Prop := attached s ∧ tidy s.

(** The notification of a press that began with the event [e]. *)
Definition longpress_event (e : PointerEvent) : CustomEvent :=
  {| type := "longpress"; detail_pointerType := pointerType e |}.

(** Pointer-up, pointer-cancel and pointer-leave. *)
Definition interruption (ty : EventType) : Prop := ty ≠ pointerdown.

Definition waits (ds : list Z) : list Step := map Wait ds.

Definition total (ds : list Z) : Z := fold_right Z.add 0 ds.

(** The timer a press starts in state [s]. *)
Definition press (e : PointerEvent) (s : State) : Timeout :=
  {| id := next_id s; delay := cur_ms s; due := now s + Z.max 0 (cur_ms s);
     captured := e |}.

(** The state once the timer of the press that began with [e] has run. *)
Definition fired (e : PointerEvent) (s : State) : State :=
  set_timer None
    (set_timeouts [] (set_dispatched (dispatched s ++ [longpress_event e]) s)).

(** A step that neither begins a press nor changes the configuration. *)
Definition keeps_press (a : Step) : Prop :=
  match a with
  | Pointer ty _ => interruption ty
  | Wait _ => True
  | Update _ => False
  | Destroy => True
  end.

(** The events of the pointer-downs of a run, in order. *)
Fixpoint presses (l : list Step) : list PointerEvent :=
  match l with
  | [] => []
  | Pointer pointerdown e :: l' => e :: presses l'
  | _ :: l' => presses l'
  end.

End Longpress.

(* ===================================================================== *)
(** ** [longpress] as the tutorial lists it  (doc.md) *)
(* ===================================================================== *)

(** The tutorial prints the action with the body of the source file, but
    for [destroy], which there removes the listeners and clears the
    timer. *)
Module LongpressTutorial.
Import Longpress.

(** [node.removeEventListener(ty, l)]: removing a listener that is not
    registered does nothing. *)
Definition removeEventListener (ty : EventType) (l : Listener)
    (s : State) : State :=
  set_listeners (filter (fun r => r ≠ (ty, l)) (listeners s)) s.

Definition destroy (s : State) : State :=
  let s := removeEventListener pointerdown start_listener s in
  let s := removeEventListener pointerup stop_listener s in
  let s := removeEventListener pointercancel stop_listener s in
  let s := removeEventListener pointerleave stop_listener s in
  clear s.

Definition step (s : State) (a : Step) : State :=
  match a with
  | Destroy => destroy s
  | _ => Longpress.step s a
  end.

Definition run (l : list Step) (s : State) : State := fold_left step l s.

End LongpressTutorial.

(* ===================================================================== *)
(** ** [clickOutside]  (src/lib/actions/clickOutside.svelte.ts) *)
(* ===================================================================== *)

Module ClickOutside.

(** DOM nodes, compared by identity. *)
Definition Node : Type := nat.

(** The part of a [PointerEvent] the action reads: [composedPath()] is the
    list of the nodes the event travels through. *)
Record PointerEvent : Type := {
  target : Node;
  composedPath : list Node
}.

(** [new CustomEvent(type, { detail: { originalEvent } })]. *)
Record CustomEvent : Type := { type : string; originalEvent : PointerEvent }.

(** An [onPointerDown] function.  Every call of [clickOutside] creates a
    new one, told apart from the others by [closure]; [node] is the variable
    it captures. *)
Record Listener : Type := { closure : nat; node : Node }.

#[global] Instance Listener_eq_dec : EqDecision Listener.
Proof. solve_decision. Defined.

(** An entry of the listener list of [document]. *)
Record Registration : Type := {
  event_type : string;
  callback : Listener;
  capture : bool
}.

#[global] Instance Registration_eq_dec : EqDecision Registration.
Proof. solve_decision. Defined.

(** The document: its listener list and the number of [onPointerDown]
    functions created so far. *)
Record Document : Type := {
  listeners : list Registration;
  next_closure : nat
}.

(** [node.dispatchEvent(ev)] as seen from outside: which listener
    dispatched which event on which node. *)
Record Dispatch : Type := {
  by_listener : nat;
  on_node : Node;
  event : CustomEvent
}.

(** [document.addEventListener(ty, l, c)]: an entry with the same type,
    function and phase is not added twice. *)
Definition addEventListener (ty : string) (l : Listener) (c : bool)
    (d : Document) : Document :=
  let r := {| event_type := ty; callback := l; capture := c |} in
  if decide (r ∈ listeners d) then d
  else {| listeners := listeners d ++ [r]; next_closure := next_closure d |}.

(** [document.removeEventListener(ty, l, c)]: removing an entry that is not
    there does nothing. *)
Definition removeEventListener (ty : string) (l : Listener) (c : bool)
    (d : Document) : Document :=
  let r := {| event_type := ty; callback := l; capture := c |} in
  {| listeners := filter (fun x => x ≠ r) (listeners d);
     next_closure := next_closure d |}.

(** [e.composedPath().includes(node)]. *)
Definition includes (n : Node) (path : list Node) : bool :=
  bool_decide (n ∈ path).

Definition onPointerDown (l : Listener) (e : PointerEvent) : list Dispatch :=
  if negb (includes (node l) (composedPath e)) then
    [ {| by_listener := closure l; on_node := node l;
         event := {| type := "clickoutside"; originalEvent := e |} |} ]
  else [].

(** The returned object has the single method [destroy]. *)
Definition destroy (l : Listener) (d : Document) : Document :=
  removeEventListener "pointerdown" l true d.

(** [clickOutside(node)]: the new listener (which stands for the returned
    handle) and the document after the call. *)
Definition clickOutside (n : Node) (d : Document) : Listener * Document :=
  let l := {| closure := next_closure d; node := n |} in
  let d := {| listeners := listeners d; next_closure := S (next_closure d) |} in
  (l, addEventListener "pointerdown" l true d).

(** A pointer-down event reaches [document] in the capture phase: its
    capture listeners for the type run in registration order. *)
Definition dispatch_pointerdown (e : PointerEvent) (d : Document) : list Dispatch :=
  flat_map (fun r => onPointerDown (callback r) e)
           (filter (fun r => event_type r = "pointerdown" ∧ capture r = true)
                   (listeners d)).

(** What the rest of the page may do meanwhile: attach the action to some
    node, or destroy an attachment. *)
Inductive Op : Type :=
| Attach (n : Node)
| Detach (l : Listener).

#[global] Instance Op_eq_dec : EqDecision Op.
Proof. solve_decision. Defined.

Definition apply_op (d : Document) (o : Op) : Document :=
  match o with
  | Attach n => (clickOutside n d).2
  | Detach l => destroy l d
  end.

Definition apply_ops (ops : list Op) (d : Document) : Document :=
  fold_left apply_op ops d.

Definition empty_document : Document := {| listeners := []; next_closure := 0 |}.

(** *** Vocabulary of the properties *)

(** Every function registered was created by an earlier [clickOutside]. *)
Definition well_formed (d : Document) : Prop :=
  Forall (fun r => (closure (callback r) < next_closure d)%nat) (listeners d).

(** The entry [clickOutside] adds for the listener [l]. *)
Definition registration (l : Listener) : Registration :=
  {| event_type := "pointerdown"; callback := l; capture := true |}.

(** The [clickoutside] notification of [l] for the pointer event [e]. *)
Definition notification (l : Listener) (e : PointerEvent) : Dispatch :=
  {| by_listener := closure l; on_node := node l;
     event := {| type := "clickoutside"; originalEvent := e |} |}.

(** The attachment [l] is live in [d]: its function is registered, once. *)
Definition live (l : Listener) (d : Document) : Prop :=
  filter (fun r => closure (callback r) = closure l) (listeners d)
  = [registration l]
  ∧ (closure l < next_closure d)%nat.

(** The attachment [l] is gone from [d]: its function, created earlier, is
    not registered. *)
Definition gone (l : Listener) (d : Document) : Prop :=
  filter (fun r => closure (callback r) = closure l) (listeners d) = []
  ∧ (closure l < next_closure d)%nat.

End ClickOutside.

(* ===================================================================== *)
(** ** [tooltip]  (src/lib/actions/tooltip.svelte.ts) *)
(* ===================================================================== *)

Module Tooltip.

Definition Node : Type := nat.

(** [TooltipParams]: [placement] is optional. *)
Record TooltipParams : Type := {
  content : string;
  placement : option string
}.

(** The options object handed to [tippy]. *)
Record Props : Type := {
  props_content : string;
  props_placement : string
}.

#[global] Instance Props_eq_dec : EqDecision Props.
Proof. solve_decision. Defined.

(** A tippy instance, known by the order of its creation. *)
Definition Instance : Type := nat.

(** What the action asks of tippy.js, the only things the library is
    required to offer: [tippy(node, props)], which returns an instance or
    throws, and [instance.destroy()]. *)
Inductive Call : Type :=
| Created (i : Instance) (n : Node) (p : Props)
| CreateThrew (n : Node) (p : Props)
| Destroyed (i : Instance).

(** The library (the calls made so far, oldest first) and the closure
    variable of the attachment. *)
Record State : Type := {
  calls : list Call;
  next_instance : nat;
  instance : option Instance      (* [let instance] *)
}.

Inductive Exception : Type :=
| TippyError          (* thrown by [tippy] *)
| TypeError.          (* calling what is not a function *)

(** The outcome of a call: a value or an exception. *)
Inductive Completion (A : Type) : Type :=
| Normal (a : A)
| Throw (e : Exception).
Arguments Normal {A} a.
Arguments Throw {A} e.

(** Code that changes the state and may throw: the state changes made
    before an exception stay. *)
Definition M (A : Type) : Type := State -> State * Completion A.

Definition ret {A} (a : A) : M A := fun s => (s, Normal a).

Definition bind {A B} (m : M A) (k : A -> M B) : M B :=
  fun s =>
    match m s with
    | (s', Normal a) => k a s'
    | (s', Throw e) => (s', Throw e)
    end.

Definition throw {A} (e : Exception) : M A := fun s => (s, Throw e).

Notation "'let*' x := m 'in' k" := (bind m (fun x => k))
  (at level 10, x name, m at level 100, k at level 200).
Notation "m 'then*' k" := (bind m (fun _ => k))
  (at level 100, k at level 200, right associativity).

Definition get_instance : M (option Instance) := fun s => (s, Normal (instance s)).

Definition set_instance (v : option Instance) : M unit :=
  fun s => ({| calls := calls s; next_instance := next_instance s;
               instance := v |}, Normal tt).

Definition log (c : Call) (s : State) : State :=
  {| calls := calls s ++ [c]; next_instance := next_instance s;
     instance := instance s |}.

(** The instances that exist: created and not destroyed since. *)
Fixpoint live (l : list Call) (acc : list Instance) : list Instance :=
  match l with
  | [] => acc
  | Created i _ _ :: l' => live l' (acc ++ [i])
  | CreateThrew _ _ :: l' => live l' acc
  | Destroyed i :: l' => live l' (filter (fun j => j ≠ i) acc)
  end.

Definition live_instances (s : State) : list Instance := live (calls s) [].

(** The options an instance was created with. *)
Fixpoint props_of (i : Instance) (l : list Call) : option Props :=
  match l with
  | [] => None
  | Created j _ p :: l' => if decide (j = i) then Some p else props_of i l'
  | _ :: l' => props_of i l'
  end.

Section Library.

(** Whether [tippy(node, props)] throws; it may depend on everything the
    library was asked before. *)
Variable throws : list Call -> Node -> Props -> bool.

Definition tippy (n : Node) (p : Props) : M Instance :=
  fun s =>
    if throws (calls s) n p then (log (CreateThrew n p) s, Throw TippyError)
    else
      let i := next_instance s in
      ({| calls := calls s ++ [Created i n p];
          next_instance := S i;
          instance := instance s |}, Normal i).

(** [i.destroy()]: does not throw, also on an instance already destroyed. *)
Definition instance_destroy (i : Instance) : M unit :=
  fun s => (log (Destroyed i) s, Normal tt).

(** [p.placement ?? 'top']. *)
Definition placement_or_top (p : TooltipParams) : string :=
  match placement p with
  | Some v => v
  | None => "top"
  end.

(** The object literal [{ content: p.content, placement: p.placement ?? 'top' }]
    of [setup]. *)
Definition to_props (p : TooltipParams) : Props :=
  {| props_content := content p; props_placement := placement_or_top p |}.

Definition setup (n : Node) (p : TooltipParams) : M unit :=
  (let* cur := get_instance in
   match cur with
   | Some i => instance_destroy i
   | None => ret tt
   end) then*
  let* i := tippy n (to_props p) in
  set_instance (Some i).

(** A method of the returned object, called with a list of arguments. *)
Abbreviation Method := (list TooltipParams -> M unit).

(** [update(next) { setup(next) }]: without an argument [next] is
    [undefined] and reading [p.content] throws. *)
Definition update_method (n : Node) : Method :=
  fun args =>
    match args with
    | next :: _ => setup n next
    | [] => (let* cur := get_instance in
             match cur with
             | Some i => instance_destroy i
             | None => ret tt
             end) then*
            throw TypeError
    end.

(** [destory() { instance?.destroy() }]. *)
Definition destory_method : Method :=
  fun _ =>
    let* cur := get_instance in
    match cur with
    | Some i => instance_destroy i
    | None => ret tt
    end.

(** The object literal the action returns, by property name. *)
Definition handle (n : Node) : gmap string Method :=
  {[ "update" := update_method n; "destory" := destory_method ]}.

(** [h.name(args)]: a property that is missing is [undefined], and calling
    it throws. *)
Definition call (h : gmap string Method) (name : string)
    (args : list TooltipParams) : M unit :=
  match h !! name with
  | Some f => f args
  | None => throw TypeError
  end.

(** [tooltip(node, params)]. *)
Definition tooltip (n : Node) (params : TooltipParams) : M (gmap string Method) :=
  set_instance None then*
  setup n params then*
  ret (handle n).

(** Calls [update] with each configuration in turn; the first exception
    ends the sequence. *)
Fixpoint updates (h : gmap string Method) (ps : list TooltipParams) : M unit :=
  match ps with
  | [] => ret tt
  | p :: ps' => call h "update" [p] then* updates h ps'
  end.

End Library.

(** The library before the page has created any tooltip. *)
Definition library (n0 : nat) : State :=
  {| calls := []; next_instance := n0; instance := None |}.

(** *** Vocabulary of the properties *)

(** The largest number of instances that existed at the same time while the
    calls [l] were made, [acc] being the instances that existed before. *)
Fixpoint peak (l : list Call) (acc : list Instance) : nat :=
  match l with
  | [] => length acc
  | Created i _ _ :: l' => Nat.max (length acc) (peak l' (acc ++ [i]))
  | CreateThrew _ _ :: l' => peak l' acc
  | Destroyed i :: l' =>
      Nat.max (length acc) (peak l' (filter (fun j => j ≠ i) acc))
  end.

(** Exactly one instance exists, the one [instance] refers to; it was
    created with the options [cfg], and there never were two at once. *)
Definition single (cfg : Props) (s : State) : Prop :=
  ∃ i, instance s = Some i
       ∧ live_instances s = [i]
       ∧ props_of i (calls s) = Some cfg
       ∧ peak (calls s) [] = 1%nat
       ∧ ∀ j, (next_instance s <= j)%nat -> props_of j (calls s) = None.

(** A library whose [tippy] throws on the content [bad] and on nothing
    else, and one that never throws. *)
Definition fails_on (bad : string) (_ : list Call) (_ : Node) (p : Props) : bool :=
  String.eqb (props_content p) bad.

Definition never (_ : list Call) (_ : Node) (_ : Props) : bool := false.

(** What the owner of a handle may ask of it, and the state it leaves the
    attachment in when the owner catches what the call throws. *)
Inductive Request : Type :=
| AskUpdate (p : TooltipParams)
| AskDestory.

Definition attempt (h : gmap string (list TooltipParams -> M unit))
    (s : State) (r : Request) : State :=
  match r with
  | AskUpdate p => (call h "update" [p] s).1
  | AskDestory => (call h "destory" [] s).1
  end.

Definition attempts (h : gmap string (list TooltipParams -> M unit))
    (rs : list Request) (s : State) : State :=
  fold_left (attempt h) rs s.

(** At most one instance exists, and if one does [instance] refers to
    it. *)
Definition at_most_one (s : State) : Prop :=
  ∃ i, instance s = Some i
       ∧ (live_instances s = [] ∨ live_instances s = [i])
       ∧ (peak (calls s) [] <= 1)%nat.

Definition config_A : TooltipParams := {| content := "A"; placement := None |}.
Definition config_B : TooltipParams :=
  {| content := "B"; placement := Some "bottom" |}.
Definition config_bad : TooltipParams := {| content := "bad"; placement := None |}.

End Tooltip.

(* ===================================================================== *)
(** ** The gallery  (src/lib/components/AnimatedGallery.svelte) *)
(* ===================================================================== *)

Module Gallery.

Record Movie : Type := {
  id : string;
  title : string;
  year : Z;
  genre : string
}.

#[global] Instance Movie_eq_dec : EqDecision Movie.
Proof. solve_decision. Defined.

(** The two state variables of the component. *)
Record State : Type := {
  movies : list Movie;
  newTitle : string
}.

Definition set_movies (v : list Movie) (g : State) : State :=
  {| movies := v; newTitle := newTitle g |}.

(** The value [movies] and [newTitle] start with. *)
Definition initial : State :=
  {| movies :=
       [ {| id := "m1"; title := "Die Hard"; year := 1988; genre := "Action" |};
         {| id := "m2"; title := "Terminator 2: Judgment Day"; year := 1991;
            genre := "Sci-Fi Action" |};
         {| id := "m3"; title := "The Matrix"; year := 1999;
            genre := "Sci-Fi Action" |};
         {| id := "m4"; title := "Lethal Weapon"; year := 1987;
            genre := "Action" |} ];
     newTitle := "" |}.

(** *** The platform *)

(** [l.findIndex(P)]: the index of the first element that satisfies [P],
    [-1] when there is none. *)
Definition findIndex (P : Movie -> Prop) `{!forall m, Decision (P m)}
    (l : list Movie) : Z :=
  match list_find P l with
  | Some (i, _) => Z.of_nat i
  | None => -1
  end.

(** [[copy[i], copy[j]] = [copy[j], copy[i]]] for indices inside the array,
    which is all the component asks for: [move] checks its indices and
    [shuffle] draws [j] between [0] and [i].  (Outside the array JavaScript
    would write [undefined] entries; the list is then left as it is.) *)
Definition swap (i j : nat) (copy : list Movie) : list Movie :=
  match copy !! j, copy !! i with
  | Some at_j, Some at_i => <[j := at_i]> (<[i := at_j]> copy)
  | _, _ => copy
  end.

(** [Array.prototype.sort] with the comparison [cmp], on a copy: the sort is
    stable, and with a consistent comparison its result is the one of
    inserting the elements one after the other, an element going before the
    first one it does not come after. *)
Section Sort.
Variable cmp : Movie -> Movie -> Z.

Fixpoint insert (x : Movie) (l : list Movie) : list Movie :=
  match l with
  | [] => [x]
  | y :: l' => if cmp x y <=? 0 then x :: y :: l' else y :: insert x l'
  end.

Fixpoint sort (l : list Movie) : list Movie :=
  match l with
  | [] => []
  | x :: l' => insert x (sort l')
  end.

End Sort.

(** *** The functions of the component *)

Section Component.

(** [String.prototype.trim] and [String.prototype.localeCompare], which
    depend on Unicode and on the locale, are left open, and so is the
    [length] of a string, which counts the UTF-16 code units of a text
    that is held here as a sequence of bytes. *)
Variable trim : string -> string.
Variable utf16_length : string -> nat.
Variable localeCompare : string -> string -> Z.

(** [addMovie()], [uuid] being what [crypto.randomUUID()] returns and
    [this_year] what [new Date().getFullYear()] does. *)
Definition addMovie (uuid : string) (this_year : Z) (g : State) : State :=
  if (utf16_length (trim (newTitle g)) <? 2)%nat then g
  else
    {| movies := {| id := uuid; title := trim (newTitle g);
                    year := this_year; genre := "Drama" |} :: movies g;
       newTitle := "" |}.

(** The attribute [disabled] of the submit button. *)
Definition submit_disabled (g : State) : bool :=
  (utf16_length (trim (newTitle g)) <? 2)%nat.

Definition move (ident : string) (direction : Z) (g : State) : State :=
  let i := findIndex (fun m => id m = ident) (movies g) in
  let j := i + direction in
  if (i <? 0) || (j <? 0) || (j >=? Z.of_nat (length (movies g))) then g
  else
    let copy := movies g in
    set_movies (swap (Z.to_nat i) (Z.to_nat j) copy) g.

Definition remove (ident : string) (g : State) : State :=
  set_movies (filter (fun m => id m ≠ ident) (movies g)) g.

(** The loop of [shuffle]: [i] counts down to 1, and [rand k] is what the
    [k]-th call of [Math.random()] returns. *)
Fixpoint shuffle_loop (rand : nat -> Q) (k : nat) (i : nat)
    (copy : list Movie) : list Movie :=
  match i with
  | O => copy
  | S i' =>
      let j := Qfloor (rand k * inject_Z (Z.of_nat i + 1)) in
      shuffle_loop rand (S k) i' (swap i (Z.to_nat j) copy)
  end.

Definition shuffle (rand : nat -> Q) (g : State) : State :=
  let copy := movies g in
  set_movies (shuffle_loop rand 0 (length copy - 1) copy) g.

Definition sortByTitle (g : State) : State :=
  set_movies
    (sort (fun a b => localeCompare (title a) (title b)) (movies g)) g.

Definition sortByYear (g : State) : State :=
  set_movies (sort (fun a b => year a - year b) (movies g)) g.

(** What the user can do: type into the input field, submit the form, and
    press the buttons. *)
Inductive Action : Type :=
| TypeTitle (text : string)
| AddMovie (uuid : string) (this_year : Z)
| Move (ident : string) (direction : Z)
| Remove (ident : string)
| Shuffle (rand : nat -> Q)
| SortByTitle
| SortByYear.

Definition act (g : State) (a : Action) : State :=
  match a with
  | TypeTitle text => {| movies := movies g; newTitle := text |}
  | AddMovie uuid this_year => addMovie uuid this_year g
  | Move ident direction => move ident direction g
  | Remove ident => remove ident g
  | Shuffle rand => shuffle rand g
  | SortByTitle => sortByTitle g
  | SortByYear => sortByYear g
  end.

Definition acts (l : list Action) (g : State) : State := fold_left act l g.

(** *** Vocabulary of the properties *)

Definition ids (g : State) : list string := map id (movies g).

(** [Math.random()] returns a number from 0 up to, but not including, 1. *)
Definition random (rand : nat -> Q) : Prop :=
  forall k, (0 <= rand k)%Q ∧ (rand k < 1)%Q.

(** A run of actions as the page can produce it: the identifiers
    [crypto.randomUUID()] hands out are new ones, and the numbers of a
    shuffle come from [Math.random()]. *)
Fixpoint admissible (g : State) (l : list Action) : Prop :=
  match l with
  | [] => True
  | a :: l' =>
      match a with
      | AddMovie uuid _ => uuid ∉ ids g
      | Shuffle rand => random rand
      | _ => True
      end ∧ admissible (act g a) l'
  end.

End Component.

(** A comparison that orders the titles: any two are comparable, and the
    order is transitive. *)
Definition consistent (cmp : string -> string -> Z) : Prop :=
  (forall a b, cmp a b <= 0 ∨ cmp b a <= 0)
  ∧ (forall a b c, cmp a b <= 0 -> cmp b c <= 0 -> cmp a c <= 0).

(** Titles compared by their length, a comparison to try the properties
    on. *)
Definition by_length (a b : string) : Z :=
  Z.of_nat (String.length a) - Z.of_nat (String.length b).

(** Ascending by year, and in the order a comparison of titles gives. *)
Definition by_year (a b : Movie) : Prop := year a <= year b.

Definition by_title (cmp : string -> string -> Z) (a b : Movie) : Prop :=
  cmp (title a) (title b) <= 0.

End Gallery.

(* ===================================================================== *)
(** * Properties *)
(* ===================================================================== *)

(** ** [formatTime] *)

Module FormatTimeFacts.
Import FormatTime.

Lemma Qfloor_div60 (n : Z) : Qfloor (inject_Z n / 60) = n / 60.
Proof.
  unfold Qdiv, Qmult, Qinv, inject_Z, Qfloor. simpl.
  now rewrite Z.mul_1_r.
Qed.

Lemma lt_zero_negative (q : Q) : (q < 0)%Q -> lt_zero (Finite q) = true.
Proof.
  intros H. unfold lt_zero.
  destruct (Qle_bool 0 q) eqn:E; [|reflexivity].
  apply Qle_bool_iff in E. exfalso. apply (Qlt_not_le _ _ H E).
Qed.

Lemma lt_zero_whole (n : Z) : 0 <= n -> lt_zero (Finite (inject_Z n)) = false.
Proof.
  intros H. unfold lt_zero.
  destruct (Qle_bool 0 (inject_Z n)) eqn:E; [reflexivity|].
  exfalso. assert (Qle_bool 0 (inject_Z n) = true); [|congruence].
  apply Qle_bool_iff. unfold Qle, inject_Z. simpl. lia.
Qed.

Lemma Qtrunc_whole (n : Z) : 0 <= n -> Qtrunc (inject_Z n / 60) = n / 60.
Proof.
  intros H. unfold Qtrunc.
  assert (E : Qle_bool 0 (inject_Z n / 60) = true).
  { apply Qle_bool_iff. unfold Qle, Qdiv, Qmult, Qinv, inject_Z. simpl. lia. }
  rewrite E. apply Qfloor_div60.
Qed.

Lemma floor_rem60 (n : Z) :
  0 <= n -> Qfloor (js_rem (inject_Z n) 60) = n mod 60.
Proof.
  intros H. unfold js_rem. rewrite Qtrunc_whole by assumption.
  unfold Qminus, Qplus, Qopp, Qmult, inject_Z, Qfloor. simpl.
  rewrite Z.div_1_r. rewrite Z.mod_eq by lia. lia.
Qed.

Lemma is_safe_integer_whole (z : Z) :
  Z.abs z <= 9007199254740991 -> is_safe_integer (inject_Z z) = true.
Proof.
  intros H. unfold is_safe_integer. rewrite Qfloor_Z.
  apply andb_true_intro. split.
  - apply Qeq_bool_iff. reflexivity.
  - apply Z.leb_le. exact H.
Qed.

Section Printing.
Variable print : Q -> string.

(** A whole number prints as its digits. *)
Lemma toString_whole (z : Z) :
  Z.abs z <= 9007199254740991 ->
  toString print (Finite (inject_Z z)) = digits z.
Proof.
  intros H. unfold toString.
  now rewrite (is_safe_integer_whole z H), Qfloor_Z.
Qed.

(** On a whole number of seconds the minutes are the quotient by 60,
    however large, and the seconds the remainder on two digits. *)
Lemma formatTime_whole (n : Z) :
  whole_seconds n ->
  formatTime print (Finite (inject_Z n))
  = digits (n / 60) ++ ":" ++ padStart 2 "0" (digits (n mod 60)).
Proof.
  intros [H0 Hmax]. unfold formatTime. rewrite lt_zero_whole by assumption.
  cbn [isFinite negb orb div rem floor].
  rewrite Qfloor_div60, floor_rem60 by assumption.
  assert (Hq : 0 <= n / 60 <= n).
  { split; [apply Z.div_pos; lia|]. apply Z.div_le_upper_bound; lia. }
  assert (Hr : 0 <= n mod 60 < 60) by (apply Z.mod_pos_bound; lia).
  rewrite !toString_whole by lia. reflexivity.
Qed.

(** C9: [formatTime] maps 0 to "0:00", 90 to "1:30" and 3661 to "61:01":
    the minutes of a whole number of seconds, up to
    [Number.MAX_SAFE_INTEGER], are its quotient by 60, without hour
    rollover; and it maps NaN, both infinities and every negative number to
    "0:00".  This holds whatever is printed for the numbers that are not
    whole. *)
Theorem formatTime_spec :
  formatTime print (Finite 0) = "0:00"
  ∧ formatTime print (Finite 90) = "1:30"
  ∧ formatTime print (Finite 3661) = "61:01"
  ∧ (forall n : Z, whole_seconds n ->
       formatTime print (Finite (inject_Z n))
       = digits (n / 60) ++ ":" ++ padStart 2 "0" (digits (n mod 60)))
  ∧ formatTime print NaN = "0:00"
  ∧ (forall negative, formatTime print (Infinity negative) = "0:00")
  ∧ (forall q : Q, (q < 0)%Q -> formatTime print (Finite q) = "0:00").
Proof.
  repeat split; try reflexivity.
  - exact formatTime_whole.
  - intros q Hq. unfold formatTime. rewrite (lt_zero_negative q Hq).
    reflexivity.
Qed.

End Printing.

Lemma formatTime_spec_witness :
  formatTime (fun _ => "1.5") (Finite (-10)) = "0:00"
  ∧ formatTime (fun _ => "1.5") (Finite (inject_Z 7384)) = "123:04".
Proof.
  destruct (formatTime_spec (fun _ => "1.5"))
    as (_ & _ & _ & Hwhole & _ & _ & Hneg).
  split.
  - apply Hneg. reflexivity.
  - rewrite Hwhole by (unfold whole_seconds; lia). reflexivity.
Defined.

(** *** Labels of whole seconds *)

Lemma to_uint_nonnil (n : N) : N.to_uint n <> Decimal.Nil.
Proof.
  destruct n as [|p]; [discriminate|]. apply DecimalPos.Unsigned.to_uint_nonnil.
Qed.

Lemma digits_inj (a b : Z) : 0 <= a -> 0 <= b -> digits a = digits b -> a = b.
Proof.
  intros Ha Hb H.
  assert (E : forall z, 0 <= z ->
            digits z = NilZero.string_of_uint (N.to_uint (Z.to_N z))).
  { intros z Hz. destruct z; try reflexivity. lia. }
  rewrite !E in H by assumption.
  apply (f_equal NilZero.uint_of_string) in H.
  rewrite !NilZero.usu in H by apply to_uint_nonnil.
  injection H as H. apply DecimalN.Unsigned.to_uint_inj in H. lia.
Qed.

Lemma append_length (s t : string) :
  String.length (s ++ t) = (String.length s + String.length t)%nat.
Proof. induction s as [|c s IH]; simpl; [reflexivity | now rewrite IH]. Qed.

Lemma append_cancel (s1 s2 t1 t2 : string) :
  String.length t1 = String.length t2 ->
  s1 ++ t1 = s2 ++ t2 -> s1 = s2 ∧ t1 = t2.
Proof.
  revert s2. induction s1 as [|c s1 IH]; intros s2 Hlen H.
  - destruct s2 as [|c2 s2]; [now split|].
    simpl in H. apply (f_equal String.length) in H. simpl in H.
    rewrite !append_length in H. simpl in H. lia.
  - destruct s2 as [|c2 s2].
    + simpl in H. apply (f_equal String.length) in H. simpl in H.
      rewrite !append_length in H. simpl in H. lia.
    + simpl in H. injection H as -> H.
      destruct (IH s2 Hlen H) as [-> ->]. now split.
Qed.

Lemma fields_lookup (b : Z) :
  0 <= b < 60 -> fields !! Z.to_nat b = Some (padStart 2 "0" (digits b)).
Proof.
  intros Hb. unfold fields. change (map ?f ?l) with (f <$> l).
  rewrite list_lookup_fmap, lookup_seq_lt by lia. simpl.
  now rewrite Z2Nat.id by lia.
Qed.

Lemma fields_distinct : NoDup fields.
Proof. apply (bool_decide_unpack _). vm_compute. exact I. Qed.

Lemma fields_two : Forall (fun s => String.length s = 2%nat) fields.
Proof. apply (bool_decide_unpack _). vm_compute. exact I. Qed.

(** X1: two different whole numbers of seconds never get the same label:
    on whole seconds [formatTime] is injective. *)
Theorem formatTime_injective (print : Q -> string) (n m : Z) :
  whole_seconds n -> whole_seconds m ->
  formatTime print (Finite (inject_Z n))
  = formatTime print (Finite (inject_Z m)) ->
  n = m.
Proof.
  intros Wn Wm H. rewrite !formatTime_whole in H by assumption.
  destruct Wn as [Hn _], Wm as [Hm _].
  assert (Hn60 : 0 <= n mod 60 < 60) by (apply Z.mod_pos_bound; lia).
  assert (Hm60 : 0 <= m mod 60 < 60) by (apply Z.mod_pos_bound; lia).
  pose proof (fields_lookup _ Hn60) as Fn.
  pose proof (fields_lookup _ Hm60) as Fm.
  assert (Ln : String.length (padStart 2 "0" (digits (n mod 60))) = 2%nat).
  { eapply (proj1 (Forall_lookup _ _) fields_two); exact Fn. }
  assert (Lm : String.length (padStart 2 "0" (digits (m mod 60))) = 2%nat).
  { eapply (proj1 (Forall_lookup _ _) fields_two); exact Fm. }
  apply append_cancel in H as [Hmin Hsec];
    [| now rewrite !append_length, Ln, Lm].
  injection Hsec as Hsec.
  change ("" ++ ?a) with a in Hsec.
  apply digits_inj in Hmin; [| apply Z.div_pos; lia ..].
  rewrite <- Hsec in Fm.
  pose proof (NoDup_lookup _ _ _ _ fields_distinct Fn Fm) as Hidx.
  rewrite (Z.div_mod n 60), (Z.div_mod m 60) by lia. lia.
Qed.

Lemma formatTime_injective_witness :
  formatTime (fun _ => "1.5") (Finite (inject_Z 3599))
  <> formatTime (fun _ => "1.5") (Finite (inject_Z 3600)).
Proof.
  intros H.
  apply (formatTime_injective (fun _ => "1.5") 3599 3600) in H;
    unfold whole_seconds; lia.
Defined.

End FormatTimeFacts.

(** ** [longpress] *)

Module LongpressFacts.
Import Longpress.

Lemma longpress_page params t0 n0 :
  longpress params (page t0 n0) =
  {| now := t0; timeouts := []; next_id := n0; listeners := four_listeners;
     userSelect := ""; dispatched := []; timer := None;
     cur_ms := ms_or_default params |}.
Proof. reflexivity. Qed.

Lemma fire_down s e : attached s -> fire pointerdown e s = start e s.
Proof. intros H. unfold fire. rewrite H. reflexivity. Qed.

Lemma fire_interruption s ty e :
  attached s -> interruption ty -> fire ty e s = stop s.
Proof.
  intros H Hty. unfold fire. rewrite H.
  destruct ty; try reflexivity. now elim Hty.
Qed.

Lemma addEventListener_present ty l s :
  (ty, l) ∈ listeners s -> addEventListener ty l s = s.
Proof.
  intros H. unfold addEventListener. now rewrite decide_True.
Qed.

Lemma destroy_attached s : attached s -> destroy s = s.
Proof.
  intros H. unfold destroy.
  assert (Hin : forall r, r ∈ four_listeners -> r ∈ listeners s)
    by (intros r Hr; now rewrite H).
  rewrite (addEventListener_present pointerdown start_listener s),
          (addEventListener_present pointerup stop_listener s),
          (addEventListener_present pointercancel stop_listener s),
          (addEventListener_present pointerleave stop_listener s);
    try reflexivity; apply Hin; unfold four_listeners; set_solver.
Qed.

Lemma filter_id_self (t : Timeout) :
  filter (fun x => id x ≠ id t) [t] = [].
Proof.
  rewrite filter_cons. destruct (decide (id t ≠ id t)); [congruence|reflexivity].
Qed.

Lemma advance_idle s dt :
  idle s -> 0 <= dt -> advance dt s = set_now (now s + dt) s.
Proof.
  intros [Ht _] Hdt. unfold advance. rewrite Z.max_r by lia.
  simpl. rewrite Ht. reflexivity.
Qed.

Lemma advance_early s t dt :
  pending t s -> 0 <= dt -> now s + dt < due t ->
  advance dt s = set_now (now s + dt) s.
Proof.
  intros [Ht _] Hdt Hlt. unfold advance. rewrite Z.max_r by lia.
  simpl. rewrite Ht. simpl. unfold next_due. simpl. rewrite Ht. simpl.
  destruct (Z.leb_spec (due t) (now s + dt)); [lia|reflexivity].
Qed.

Lemma advance_fire s t dt :
  pending t s -> 0 <= dt -> due t <= now s + dt ->
  advance dt s = fired (captured t) (set_now (now s + dt) s).
Proof.
  intros [Ht Hi] Hdt Hle. unfold advance. rewrite Z.max_r by lia.
  simpl. rewrite Ht. simpl. unfold next_due. simpl. rewrite Ht. simpl.
  destruct (Z.leb_spec (due t) (now s + dt)); [|lia].
  unfold on_timeout, clear, clearTimeout, dispatchEvent. simpl.
  rewrite Hi, Ht. rewrite filter_id_self. simpl. reflexivity.
Qed.

Ltac crush_state :=
  repeat match goal with
         | s : State |- _ => destruct s
         | H : idle _ |- _ => destruct H
         | H : pending _ _ |- _ => destruct H
         end;
  simpl in *; subst; simpl in *.

Lemma clear_tidy s : tidy s -> clear s = set_timer None (set_timeouts [] s).
Proof.
  intros [H | [t H]]; unfold clear, clearTimeout; crush_state;
    [reflexivity|].
  rewrite filter_id_self. reflexivity.
Qed.

Lemma start_tidy s e :
  tidy s ->
  start e s =
  {| now := now s; timeouts := [press e s]; next_id := S (next_id s);
     listeners := listeners s; userSelect := "none";
     dispatched := dispatched s; timer := Some (next_id s);
     cur_ms := cur_ms s |}.
Proof.
  intros H. unfold start. rewrite clear_tidy by assumption.
  destruct s; reflexivity.
Qed.

Lemma stop_tidy s :
  tidy s ->
  stop s =
  {| now := now s; timeouts := []; next_id := next_id s;
     listeners := listeners s; userSelect := "";
     dispatched := dispatched s; timer := None; cur_ms := cur_ms s |}.
Proof.
  intros H. unfold stop.
  rewrite clear_tidy.
  - destruct s; reflexivity.
  - destruct H as [H | [t H]]; [left | right; exists t];
      crush_state; split; reflexivity.
Qed.

Lemma total_nonneg ds : Forall (fun d => 0 <= d) ds -> 0 <= total ds.
Proof. induction 1; simpl; lia. Qed.

Lemma waits_idle ds : forall s,
  idle s -> Forall (fun d => 0 <= d) ds ->
  run (waits ds) s = set_now (now s + total ds) s.
Proof.
  induction ds as [|d ds IH]; intros s Hs Hds.
  - simpl. rewrite Z.add_0_r. destruct s; reflexivity.
  - inversion Hds; subst. simpl.
    rewrite advance_idle by assumption.
    unfold run in IH.
    rewrite IH; [| crush_state; split; reflexivity | assumption].
    destruct s; simpl. unfold set_now; simpl. f_equal. lia.
Qed.

Lemma waits_early ds : forall s t,
  pending t s -> Forall (fun d => 0 <= d) ds -> now s + total ds < due t ->
  run (waits ds) s = set_now (now s + total ds) s.
Proof.
  induction ds as [|d ds IH]; intros s t Hs Hds Hlt.
  - simpl. rewrite Z.add_0_r. destruct s; reflexivity.
  - inversion Hds as [|? ? Hd Hds']; subst. simpl in *.
    pose proof (total_nonneg ds Hds').
    rewrite (advance_early s t) by (assumption || lia).
    unfold run in IH.
    rewrite (IH _ t);
      [| crush_state; split; reflexivity | assumption | simpl; lia].
    destruct s; simpl. unfold set_now; simpl. f_equal. lia.
Qed.

Lemma waits_fire ds : forall d s t,
  pending t s -> 0 <= d -> Forall (fun d => 0 <= d) ds ->
  due t <= now s + (d + total ds) ->
  run (Wait d :: waits ds) s =
  fired (captured t) (set_now (now s + (d + total ds)) s).
Proof.
  induction ds as [|d' ds IH]; intros d s t Hs Hd Hds Hle.
  - simpl in *. rewrite (advance_fire s t) by (assumption || lia).
    rewrite Z.add_0_r. reflexivity.
  - inversion Hds as [|? ? Hd' Hds']; subst.
    pose proof (total_nonneg ds Hds').
    destruct (Z.le_gt_cases (due t) (now s + d)) as [Hf | He].
    + change (run (Wait d :: waits (d' :: ds)) s)
        with (run (waits (d' :: ds)) (advance d s)).
      rewrite (advance_fire s t) by assumption.
      rewrite waits_idle; [| crush_state; split; reflexivity | assumption].
      destruct s; simpl.
      unfold fired, set_now, set_timer, set_timeouts, set_dispatched; simpl.
      f_equal. lia.
    + change (run (Wait d :: waits (d' :: ds)) s)
        with (run (Wait d' :: waits ds) (advance d s)).
      rewrite (advance_early s t) by (assumption || lia).
      rewrite (IH d' _ t);
        [| crush_state; split; reflexivity | assumption | assumption
         | simpl in *; lia].
      destruct s; simpl.
      unfold fired, set_now, set_timer, set_timeouts, set_dispatched; simpl.
      f_equal. lia.
Qed.

Lemma run_app l1 l2 s : run (l1 ++ l2) s = run l2 (run l1 s).
Proof. unfold run. apply fold_left_app. Qed.

Lemma attachment_longpress params t0 n0 :
  attachment (longpress params (page t0 n0)).
Proof.
  rewrite longpress_page. split; [reflexivity|]. left. split; reflexivity.
Qed.

(** The state after a press on a fresh attachment. *)
Lemma pressed params t0 n0 e :
  let s0 := longpress params (page t0 n0) in
  step s0 (Pointer pointerdown e) =
  {| now := t0; timeouts := [press e s0]; next_id := S n0;
     listeners := four_listeners; userSelect := "none"; dispatched := [];
     timer := Some n0; cur_ms := ms_or_default params |}.
Proof.
  intros s0. simpl. rewrite fire_down by apply attachment_longpress.
  rewrite start_tidy by apply attachment_longpress. reflexivity.
Qed.

Lemma pressed_pending params t0 n0 e :
  let s0 := longpress params (page t0 n0) in
  pending (press e s0) (step s0 (Pointer pointerdown e)).
Proof. intros s0. unfold s0. rewrite pressed. split; reflexivity. Qed.

(** *** The fuel of [advance] is enough *)

Lemma earliest_In l t : earliest l = Some t -> t ∈ l.
Proof.
  revert t. induction l as [|x l IH]; intros t H; simpl in H; [discriminate|].
  destruct (earliest l) as [u|].
  - destruct (due u <? due x); inversion H; subst.
    + right. now apply IH.
    + left.
  - inversion H; subst. left.
Qed.

Lemma next_due_In s t : next_due s = Some t -> t ∈ timeouts s.
Proof.
  unfold next_due. destruct (earliest (timeouts s)) as [u|] eqn:E; [|discriminate].
  destruct (due u <=? now s); [|discriminate].
  intros H; inversion H; subst. now apply earliest_In.
Qed.

Lemma timeouts_clear s : (length (timeouts (clear s)) <= length (timeouts s))%nat.
Proof.
  unfold clear. destruct (timer s); simpl; [|lia]. apply length_filter.
Qed.

Lemma on_timeout_shrinks s t :
  t ∈ timeouts s ->
  (length (timeouts (on_timeout (captured t) (clearTimeout (id t) s)))
   < length (timeouts s))%nat.
Proof.
  intros Hin. unfold on_timeout.
  eapply Nat.le_lt_trans; [apply timeouts_clear|].
  simpl. apply (length_filter_lt _ _ t); [assumption|]. intros H. now apply H.
Qed.

Lemma run_timers_complete fuel : forall s,
  (length (timeouts s) <= fuel)%nat -> next_due (run_timers fuel s) = None.
Proof.
  induction fuel as [|k IH]; intros s Hlen; simpl.
  - unfold next_due. destruct (timeouts s); [reflexivity | simpl in Hlen; lia].
  - destruct (next_due s) as [t|] eqn:E; [|assumption].
    apply IH. pose proof (on_timeout_shrinks s t (next_due_In s t E)). lia.
Qed.

Lemma advance_complete dt s : next_due (advance dt s) = None.
Proof. unfold advance. apply run_timers_complete. reflexivity. Qed.

(** *** The states of an attachment *)

Lemma listeners_clear s : listeners (clear s) = listeners s.
Proof. unfold clear. destruct (timer s); reflexivity. Qed.

Lemma listeners_run_timers fuel : forall s,
  listeners (run_timers fuel s) = listeners s.
Proof.
  induction fuel as [|k IH]; intros s; simpl; [reflexivity|].
  destruct (next_due s); [|reflexivity].
  rewrite IH. unfold on_timeout. rewrite listeners_clear. reflexivity.
Qed.

Lemma tidy_set_now v s : tidy s -> tidy (set_now v s).
Proof. intros [H | [t H]]; [left | right; exists t]; exact H. Qed.

Lemma tidy_advance dt s : tidy s -> tidy (advance dt s).
Proof.
  intros H. destruct H as [H | [t H]].
  - unfold advance. destruct H as [Ht Hi]. simpl. rewrite Ht. simpl.
    left. split; assumption.
  - unfold advance. pose proof H as [Ht Hi]. simpl. rewrite Ht. simpl.
    unfold next_due. simpl. rewrite Ht. simpl.
    destruct (due t <=? now s + Z.max 0 dt).
    + left. unfold on_timeout, clear, clearTimeout, dispatchEvent. simpl.
      rewrite Hi, Ht, filter_id_self. split; reflexivity.
    + right. exists t. split; assumption.
Qed.

Lemma step_attachment s a : attachment s -> attachment (step s a).
Proof.
  intros [Ha Ht]. destruct a as [ty e|dt|next|]; simpl.
  - destruct (decide (ty = pointerdown)) as [->|Hty].
    + rewrite fire_down, start_tidy by assumption. split; [exact Ha|].
      right. eexists. split; reflexivity.
    + rewrite fire_interruption, stop_tidy by assumption. split; [exact Ha|].
      left. split; reflexivity.
  - split; [|now apply tidy_advance].
    unfold attached, advance. rewrite listeners_run_timers. exact Ha.
  - split; [exact Ha|]. destruct Ht as [H | [t H]]; [left | right; exists t]; exact H.
  - rewrite destroy_attached by assumption. split; assumption.
Qed.

Lemma run_attachment l : forall s, attachment s -> attachment (run l s).
Proof.
  induction l as [|a l IH]; intros s H; [exact H|].
  apply IH. now apply step_attachment.
Qed.

(** *** [update] and the running timer *)

Lemma clear_set_ms v s : clear (set_ms v s) = set_ms v (clear s).
Proof. unfold clear. simpl. destruct (timer s); reflexivity. Qed.

Lemma stop_set_ms v s : stop (set_ms v s) = set_ms v (stop s).
Proof. unfold stop. now rewrite <- clear_set_ms. Qed.

Lemma on_timeout_set_ms e v s :
  on_timeout e (set_ms v s) = set_ms v (on_timeout e s).
Proof. unfold on_timeout. now rewrite <- clear_set_ms. Qed.

Lemma run_timers_set_ms fuel : forall v s,
  run_timers fuel (set_ms v s) = set_ms v (run_timers fuel s).
Proof.
  induction fuel as [|k IH]; intros v s; simpl; [reflexivity|].
  change (next_due (set_ms v s)) with (next_due s).
  destruct (next_due s) as [t|]; [|reflexivity].
  rewrite <- IH, <- on_timeout_set_ms. reflexivity.
Qed.

Lemma advance_set_ms dt v s : advance dt (set_ms v s) = set_ms v (advance dt s).
Proof. unfold advance. now rewrite <- run_timers_set_ms. Qed.

Lemma step_set_ms a v s :
  attachment s -> keeps_press a -> step (set_ms v s) a = set_ms v (step s a).
Proof.
  intros [Ha Ht] Hk. destruct a as [ty e|dt|next|]; simpl in *.
  - rewrite !fire_interruption by assumption. apply stop_set_ms.
  - apply advance_set_ms.
  - contradiction.
  - rewrite !destroy_attached by assumption. reflexivity.
Qed.

Lemma run_set_ms l : forall v s,
  attachment s -> Forall keeps_press l -> run l (set_ms v s) = set_ms v (run l s).
Proof.
  induction l as [|a l IH]; intros v s Hs Hl; [reflexivity|].
  inversion Hl; subst. simpl.
  rewrite step_set_ms by assumption.
  apply IH; [now apply step_attachment | assumption].
Qed.

(** *** The claims *)

(** C1 (what the code does): [destroy] changes nothing.  The four
    listeners stay registered and a pending timer is not cancelled: a press
    begun before [destroy] still dispatches its notification, and so does a
    press begun after it. *)
Theorem destroy_leaves_listeners params t0 n0 e :
  let s0 := longpress params (page t0 n0) in
  let m := Z.max 0 (ms_or_default params) in
  destroy s0 = s0
  ∧ listeners (destroy s0) = four_listeners
  ∧ run [Pointer pointerdown e; Destroy] s0 = run [Pointer pointerdown e] s0
  ∧ timeouts (run [Pointer pointerdown e; Destroy] s0) = [press e s0]
  ∧ dispatched (run [Pointer pointerdown e; Destroy; Wait m] s0)
    = [longpress_event e]
  ∧ dispatched (run [Destroy; Pointer pointerdown e; Wait m] s0)
    = [longpress_event e].
Proof.
  intros s0 m.
  assert (Hd : destroy s0 = s0) by (apply destroy_attached; reflexivity).
  assert (Hp : destroy (step s0 (Pointer pointerdown e))
               = step s0 (Pointer pointerdown e)).
  { apply destroy_attached. unfold s0. rewrite pressed. reflexivity. }
  assert (Hw : dispatched (advance m (step s0 (Pointer pointerdown e)))
               = [longpress_event e]).
  { rewrite (advance_fire _ _ _ (pressed_pending params t0 n0 e)).
    - unfold s0. rewrite pressed. reflexivity.
    - unfold m. lia.
    - unfold s0. rewrite pressed. simpl. fold m. lia. }
  split; [exact Hd|]. split; [rewrite Hd; reflexivity|].
  split; [exact Hp|].
  split.
  { change (run [Pointer pointerdown e; Destroy] s0)
      with (destroy (step s0 (Pointer pointerdown e))).
    rewrite Hp. unfold s0. rewrite pressed. reflexivity. }
  split.
  - change (run [Pointer pointerdown e; Destroy; Wait m] s0)
      with (advance m (destroy (step s0 (Pointer pointerdown e)))).
    rewrite Hp. exact Hw.
  - change (run [Destroy; Pointer pointerdown e; Wait m] s0)
      with (advance m (step (destroy s0) (Pointer pointerdown e))).
    rewrite Hd. exact Hw.
Qed.



(** C6: with a threshold of 600ms, a pointer-down followed by at least
    600ms without pointer-up, pointer-cancel or pointer-leave dispatches
    exactly one notification, carrying the pointer type of that
    pointer-down; a pointer-down interrupted by one of the three before
    600ms have passed dispatches none, then or later, and its timer is
    cancelled. *)
Theorem longpress_timing params t0 n0 e :
  ms_or_default params = 600 ->
  (forall ds, Forall (fun d => 0 <= d) ds -> 600 <= total ds ->
     let s := run (Pointer pointerdown e :: waits ds)
                  (longpress params (page t0 n0)) in
     dispatched s = [longpress_event e] ∧ timeouts s = [] ∧ timer s = None)
  ∧
  (forall ds ty e' ds',
     Forall (fun d => 0 <= d) ds -> total ds < 600 -> interruption ty ->
     Forall (fun d => 0 <= d) ds' ->
     let s := run (Pointer pointerdown e :: waits ds ++ [Pointer ty e'])
                  (longpress params (page t0 n0)) in
     dispatched s = [] ∧ timeouts s = [] ∧ timer s = None ∧
     dispatched (run (waits ds') s) = []).
Proof.
  intros Hms. split.
  - intros ds Hds Htot s.
    destruct ds as [|d ds]; [simpl in Htot; lia|].
    inversion Hds as [|? ? Hd Hds']; subst.
    unfold s.
    change (run (Pointer pointerdown e :: waits (d :: ds)) ?s0)
      with (run (Wait d :: waits ds) (step s0 (Pointer pointerdown e))).
    rewrite (waits_fire ds d _ _ (pressed_pending params t0 n0 e));
      [| assumption | assumption |].
    + rewrite pressed. repeat split; reflexivity.
    + rewrite pressed. simpl in *. rewrite Hms. lia.
  - intros ds ty e' ds' Hds Htot Hty Hds' s.
    assert (Hs : s = stop (set_now (t0 + total ds)
                   (step (longpress params (page t0 n0)) (Pointer pointerdown e)))).
    { unfold s.
      change (run (Pointer pointerdown e :: waits ds ++ [Pointer ty e']) ?s0)
        with (run (waits ds ++ [Pointer ty e']) (step s0 (Pointer pointerdown e))).
      rewrite run_app.
      rewrite (waits_early ds _ _ (pressed_pending params t0 n0 e));
        [| assumption | rewrite pressed; simpl; rewrite Hms; lia].
      rewrite pressed. simpl.
      rewrite fire_interruption; [reflexivity | reflexivity | assumption]. }
    rewrite pressed in Hs.
    rewrite stop_tidy in Hs by (right; eexists; split; reflexivity).
    simpl in Hs.
    rewrite Hs. repeat split; try reflexivity.
    rewrite waits_idle; [reflexivity | split; reflexivity | assumption].
Qed.

(** C8: [update] while a press timer is running changes neither the timer
    nor when it fires: whatever follows short of a new press (time passing,
    interruptions, [destroy]) goes exactly as it would have without the
    update, the configured value apart; a press begun after the update
    starts its timer with the new threshold. *)
Theorem update_keeps_running_timer s next :
  attachment s ->
  (forall l, Forall keeps_press l ->
     run l (update next s) = set_ms (ms_or_default next) (run l s))
  ∧ timeouts (update next s) = timeouts s
  ∧ (forall e,
       timeouts (step (update next s) (Pointer pointerdown e)) =
       [ {| id := next_id s; delay := ms_or_default next;
            due := now s + Z.max 0 (ms_or_default next); captured := e |} ]).
Proof.
  intros Hs. split; [|split].
  - intros l Hl. unfold update. now apply run_set_ms.
  - reflexivity.
  - intros e. destruct Hs as [Ha Ht]. simpl.
    rewrite fire_down by exact Ha.
    rewrite start_tidy; [reflexivity|].
    destruct Ht as [H | [t H]]; [left | right; exists t]; exact H.
Qed.

(** C10: when the timer of a press elapses and the notification is
    dispatched, [userSelect] keeps the value ["none"] set at pointer-down:
    the timer function does not touch it, it stays while time passes, the
    next pointer-up, pointer-cancel or pointer-leave resets it to the empty
    string, and the next pointer-down sets ["none"] again. *)
Theorem firing_keeps_userSelect params t0 n0 e ds :
  Forall (fun d => 0 <= d) ds -> ds ≠ [] ->
  Z.max 0 (ms_or_default params) <= total ds ->
  let s := run (Pointer pointerdown e :: waits ds)
               (longpress params (page t0 n0)) in
  (forall e' s', userSelect (on_timeout e' s') = userSelect s')
  ∧ dispatched s = [longpress_event e]
  ∧ userSelect s = "none"
  ∧ (forall ds', Forall (fun d => 0 <= d) ds' ->
       userSelect (run (waits ds') s) = "none")
  ∧ (forall ty e', interruption ty -> userSelect (step s (Pointer ty e')) = "")
  ∧ (forall e', userSelect (step s (Pointer pointerdown e')) = "none").
Proof.
  intros Hds Hne Htot s.
  destruct ds as [|d ds]; [congruence|].
  inversion Hds as [|? ? Hd Hds']; subst.
  assert (Hs : s = fired e (set_now (t0 + (d + total ds))
                 (step (longpress params (page t0 n0)) (Pointer pointerdown e)))).
  { unfold s.
    change (run (Pointer pointerdown e :: waits (d :: ds)) ?s0)
      with (run (Wait d :: waits ds) (step s0 (Pointer pointerdown e))).
    rewrite (waits_fire ds d _ _ (pressed_pending params t0 n0 e));
      [rewrite pressed; reflexivity | assumption | assumption |].
    rewrite pressed. simpl in *. lia. }
  rewrite pressed in Hs. unfold fired in Hs. simpl in Hs.
  assert (Hatt : attachment s).
  { rewrite Hs. split; [reflexivity|]. left. split; reflexivity. }
  split; [|split; [|split; [|split; [|split]]]].
  - intros e' s'. unfold on_timeout, clear. simpl.
    destruct (timer s'); reflexivity.
  - rewrite Hs. reflexivity.
  - rewrite Hs. reflexivity.
  - intros ds' Hds''.
    rewrite waits_idle; [| rewrite Hs; split; reflexivity | assumption].
    rewrite Hs. reflexivity.
  - intros ty e' Hty. simpl.
    rewrite fire_interruption, stop_tidy by (apply Hatt || assumption).
    reflexivity.
  - intros e'. simpl.
    rewrite fire_down, start_tidy by apply Hatt. reflexivity.
Qed.

(** *** The properties at concrete inputs *)

Lemma longpress_timing_witness :
  dispatched (run [Pointer pointerdown touch; Wait 250; Wait 350]
                  (longpress None (page 0 0)))
  = [longpress_event touch]
  ∧ dispatched (run ([Pointer pointerdown mouse; Wait 300] ++
                     [Pointer pointerup mouse])
                    (longpress None (page 0 0)))
    = [].
Proof.
  destruct (longpress_timing None 0 0%nat touch eq_refl) as [Hfire _].
  destruct (longpress_timing None 0 0%nat mouse eq_refl) as [_ Hstop].
  split.
  - apply (Hfire [250; 350]); [repeat constructor; lia | simpl; lia].
  - apply (Hstop [300] pointerup mouse []);
      [repeat constructor; lia | simpl; lia | discriminate | constructor].
Defined.

Lemma update_keeps_running_timer_witness :
  let s := run [Pointer pointerdown mouse; Wait 300]
               (longpress (Some {| ms := Some 600 |}) (page 0 0)) in
  let next := Some {| ms := Some 100 |} in
  dispatched (run [Wait 299] (update next s)) = []
  ∧ dispatched (run [Wait 300] (update next s)) = [longpress_event mouse]
  ∧ timeouts (step (update next s) (Pointer pointerdown touch))
    = [ {| id := 1%nat; delay := 100; due := 400; captured := touch |} ].
Proof.
  intros s next.
  assert (Hs : attachment s).
  { apply run_attachment, attachment_longpress. }
  destruct (update_keeps_running_timer s next Hs) as (Hrun & _ & Hnew).
  split; [|split].
  - rewrite (Hrun [Wait 299]) by (repeat constructor). reflexivity.
  - rewrite (Hrun [Wait 300]) by (repeat constructor). reflexivity.
  - rewrite Hnew. reflexivity.
Defined.

Lemma firing_keeps_userSelect_witness :
  let s := run (Pointer pointerdown mouse :: waits [600])
               (longpress None (page 0 0)) in
  dispatched s = [longpress_event mouse]
  ∧ userSelect s = "none"
  ∧ userSelect (step s (Pointer pointerup mouse)) = "".
Proof.
  intros s.
  assert (H600 : Forall (fun d => 0 <= d) [600]) by (repeat constructor; lia).
  assert (Hne : [600] ≠ []) by discriminate.
  assert (Htot : Z.max 0 (ms_or_default None) <= total [600])
    by (simpl; lia).
  destruct (firing_keeps_userSelect None 0 0%nat mouse [600] H600 Hne Htot)
    as (_ & Hd & Hu & _ & Hi & _).
  split; [exact Hd|]. split; [exact Hu|].
  apply Hi. discriminate.
Defined.


(** ** Further properties of [longpress] *)

Local Open Scope list_scope.

(** *** A press from any state *)

Lemma press_pending s e :
  attachment s -> pending (press e s) (step s (Pointer pointerdown e)).
Proof.
  intros [Ha Ht]. simpl. rewrite fire_down, start_tidy by assumption.
  split; reflexivity.
Qed.

(** X2: a pointer-down restarts the timer from zero in whatever state the
    attachment is, a press in progress included, when the threshold is a
    delay that a timer takes as it is: the timer that was pending is
    dropped, nothing is dispatched before the threshold has passed since
    this pointer-down, and once it has, exactly one notification is added,
    for this pointer-down. *)
Theorem press_restarts_the_timer s e ds :
  attachment s -> timer_delay (cur_ms s) ->
  Forall (fun d => 0 <= d) ds ->
  let s' := run (Pointer pointerdown e :: waits ds) s in
  (total ds < Z.max 0 (cur_ms s) ->
   dispatched s' = dispatched s ∧ timeouts s' = [press e s])
  ∧ (ds ≠ [] -> Z.max 0 (cur_ms s) <= total ds ->
     dispatched s' = dispatched s ++ [longpress_event e] ∧ timeouts s' = []).
Proof.
  intros Hs _ Hds s'.
  pose proof (press_pending s e Hs) as Hp.
  assert (E : step s (Pointer pointerdown e) = start e s).
  { simpl. apply fire_down, Hs. }
  assert (Es : start e s =
    {| now := now s; timeouts := [press e s]; next_id := S (next_id s);
       listeners := listeners s; userSelect := "none";
       dispatched := dispatched s; timer := Some (next_id s);
       cur_ms := cur_ms s |}) by (apply start_tidy, Hs).
  change s' with (run (waits ds) (step s (Pointer pointerdown e))).
  split.
  - intros Hlt.
    rewrite (waits_early ds _ _ Hp Hds); [rewrite E, Es; split; reflexivity|].
    rewrite E, Es. simpl. lia.
  - intros Hne Hle. destruct ds as [|d ds]; [congruence|].
    inversion Hds as [|? ? Hd Hds']; subst.
    change (run (waits (d :: ds)) ?x) with (run (Wait d :: waits ds) x).
    rewrite (waits_fire ds d _ _ Hp Hd Hds');
      [rewrite E, Es; split; reflexivity|].
    rewrite E, Es. simpl in *. lia.
Qed.

(** *** Interruptions *)

(** X5: pointer-up, pointer-cancel and pointer-leave may come in any
    number and order: after the first the attachment is idle with the text
    selection restored, a further one changes nothing, and no notification
    follows however long one waits. *)
Theorem interruptions_repeat s ty1 e1 ty2 e2 :
  attachment s -> interruption ty1 -> interruption ty2 ->
  let s1 := step s (Pointer ty1 e1) in
  step s1 (Pointer ty2 e2) = s1
  ∧ idle s1
  ∧ userSelect s1 = ""
  ∧ dispatched s1 = dispatched s
  ∧ (forall ds, Forall (fun d => 0 <= d) ds ->
       dispatched (run (waits ds) s1) = dispatched s).
Proof.
  intros Hs H1 H2 s1.
  assert (E1 : s1 = stop s) by (apply fire_interruption; [apply Hs | exact H1]).
  rewrite (stop_tidy s) in E1 by apply Hs.
  assert (Hs1 : attachment s1).
  { rewrite E1. split; [apply Hs|]. left. split; reflexivity. }
  split.
  { simpl. rewrite fire_interruption, stop_tidy by (apply Hs1 || assumption).
    rewrite E1. reflexivity. }
  split; [rewrite E1; split; reflexivity|].
  split; [rewrite E1; reflexivity|].
  split; [rewrite E1; reflexivity|].
  intros ds Hds. rewrite waits_idle; [| rewrite E1; split; reflexivity | exact Hds].
  rewrite E1. reflexivity.
Qed.

(** *** What an attachment dispatches *)

Lemma advance_max dt s : advance dt s = advance (Z.max 0 dt) s.
Proof. unfold advance. now rewrite (Z.max_r 0 (Z.max 0 dt)) by lia. Qed.

(** Time passing turns the pending notification, if any, into a dispatched
    one or leaves it pending. *)
Lemma advance_cases dt s :
  tidy s ->
  advance dt s = set_now (now s + Z.max 0 dt) s
  ∨ ∃ t, pending t s
         ∧ advance dt s = fired (captured t) (set_now (now s + Z.max 0 dt) s).
Proof.
  intros Ht. rewrite advance_max.
  destruct Ht as [Hi | [t Hp]].
  - left. apply advance_idle; [exact Hi | lia].
  - destruct (Z.le_gt_cases (due t) (now s + Z.max 0 dt)) as [Hle | Hgt].
    + right. exists t. split; [exact Hp|].
      apply advance_fire; [exact Hp | lia | exact Hle].
    + left. apply (advance_early s t); [exact Hp | lia | lia].
Qed.

Lemma step_announced s a hist :
  attachment s ->
  (dispatched s ++ map (fun t => longpress_event (captured t)) (timeouts s))
    `sublist_of` map longpress_event hist ->
  (dispatched (step s a)
     ++ map (fun t => longpress_event (captured t)) (timeouts (step s a)))
    `sublist_of` map longpress_event (hist ++ presses [a]).
Proof.
  intros Hs Hsub.
  assert (Hd : dispatched s `sublist_of` map longpress_event hist).
  { etransitivity; [|exact Hsub]. apply sublist_inserts_r. reflexivity. }
  destruct a as [ty e|dt|next|].
  - destruct (decide (ty = pointerdown)) as [->|Hty].
    + simpl. rewrite fire_down, start_tidy by apply Hs. simpl.
      rewrite map_app. simpl. now apply sublist_app.
    + replace (presses [Pointer ty e]) with (@nil PointerEvent)
        by (destruct ty; [congruence | reflexivity ..]).
      simpl step. rewrite fire_interruption, stop_tidy by (apply Hs || exact Hty).
      simpl. now rewrite !app_nil_r.
  - simpl presses. rewrite app_nil_r. simpl step.
    destruct (advance_cases dt s (proj2 Hs)) as [-> | (t & [Ht Hi] & ->)].
    + exact Hsub.
    + unfold fired. simpl. rewrite Ht in Hsub. simpl in Hsub.
      now rewrite app_nil_r.
  - simpl. now rewrite app_nil_r.
  - simpl. rewrite destroy_attached by apply Hs. now rewrite app_nil_r.
Qed.

Lemma presses_app l1 l2 : presses (l1 ++ l2) = presses l1 ++ presses l2.
Proof.
  induction l1 as [|a l1 IH]; [reflexivity|].
  destruct a as [[] e| | |]; simpl; now rewrite IH.
Qed.

Lemma run_announced l : forall s hist,
  attachment s ->
  (dispatched s ++ map (fun t => longpress_event (captured t)) (timeouts s))
    `sublist_of` map longpress_event hist ->
  (dispatched (run l s)
     ++ map (fun t => longpress_event (captured t)) (timeouts (run l s)))
    `sublist_of` map longpress_event (hist ++ presses l).
Proof.
  induction l as [|a l IH]; intros s hist Hs Hsub.
  - simpl. now rewrite app_nil_r.
  - change (run (a :: l) s) with (run l (step s a)).
    change (a :: l) with ([a] ++ l). rewrite presses_app, app_assoc.
    apply IH; [now apply step_attachment | now apply step_announced].
Qed.

(** X3: whatever happens to an attachment, the notifications it has
    dispatched are, in order, notifications of pointer-downs that took
    place, each at most once: none without a press, none twice for one
    press, each with the pointer type of its press. *)
Theorem one_notification_per_press params t0 n0 l :
  let s := run l (longpress params (page t0 n0)) in
  dispatched s `sublist_of` map longpress_event (presses l)
  ∧ (length (dispatched s) + length (timeouts s) <= length (presses l))%nat.
Proof.
  intros s.
  pose proof (run_announced l (longpress params (page t0 n0)) []
                (attachment_longpress params t0 n0)) as H.
  rewrite longpress_page in H. simpl in H. specialize (H (sublist_nil_l _)).
  rewrite <- longpress_page in H. fold s in H.
  split.
  - etransitivity; [|exact H]. apply sublist_inserts_r. reflexivity.
  - apply sublist_length in H. rewrite length_app, !length_map in H. exact H.
Qed.

(** *** The timer and the text selection *)

Lemma step_suppressed s a :
  attachment s ->
  (timeouts s ≠ [] -> userSelect s = "none") ->
  timeouts (step s a) ≠ [] -> userSelect (step s a) = "none".
Proof.
  intros Hs Hu. destruct a as [ty e|dt|next|].
  - destruct (decide (ty = pointerdown)) as [->|Hty]; simpl.
    + rewrite fire_down, start_tidy by apply Hs. reflexivity.
    + rewrite fire_interruption, stop_tidy by (apply Hs || exact Hty).
      simpl. congruence.
  - simpl. destruct (advance_cases dt s (proj2 Hs)) as [-> | (t & _ & ->)].
    + exact Hu.
    + unfold fired. simpl. congruence.
  - exact Hu.
  - simpl. rewrite destroy_attached by apply Hs. exact Hu.
Qed.

Lemma run_suppressed l : forall s,
  attachment s ->
  (timeouts s ≠ [] -> userSelect s = "none") ->
  timeouts (run l s) ≠ [] -> userSelect (run l s) = "none".
Proof.
  induction l as [|a l IH]; intros s Hs Hu; [exact Hu|].
  apply IH; [now apply step_attachment | now apply step_suppressed].
Qed.

(** X4: whatever happens to an attachment, at most one of its timers is
    active; [timer] is [null] exactly when none is, holds the id of the
    active one otherwise, and the text selection is suppressed as long as
    one is active. *)
Theorem one_timer_at_most params t0 n0 l :
  let s := run l (longpress params (page t0 n0)) in
  listeners s = four_listeners
  ∧ (length (timeouts s) <= 1)%nat
  ∧ (timer s = None ↔ timeouts s = [])
  ∧ (forall t, t ∈ timeouts s -> timer s = Some (id t) ∧ userSelect s = "none").
Proof.
  intros s.
  destruct (run_attachment l _ (attachment_longpress params t0 n0))
    as [Ha Ht].
  fold s in Ha, Ht.
  pose proof (run_suppressed l _ (attachment_longpress params t0 n0)) as Hu.
  fold s in Hu. rewrite longpress_page in Hu. simpl in Hu.
  specialize (Hu (fun H => False_ind _ (H eq_refl))).
  split; [exact Ha|].
  destruct Ht as [[Hto Hti] | (t & Hto & Hti)].
  - rewrite Hto, Hti. split; [simpl; lia|]. split; [tauto|].
    intros t Hin. inversion Hin.
  - rewrite Hto, Hti. split; [simpl; lia|]. split; [split; discriminate|].
    intros t' Hin. apply list_elem_of_singleton in Hin as ->.
    split; [reflexivity|]. apply Hu. rewrite Hto. discriminate.
Qed.

(** *** [destroy] as the tutorial lists it *)

(** Nothing of the attachment is left in the page. *)
Lemma torn_down_step s a :
  listeners s = [] -> timeouts s = [] -> timer s = None ->
  let s' := LongpressTutorial.step s a in
  listeners s' = [] ∧ timeouts s' = [] ∧ timer s' = None
  ∧ dispatched s' = dispatched s ∧ userSelect s' = userSelect s.
Proof.
  intros Hl Ht Hi. destruct a as [ty e|dt|next|]; simpl.
  - unfold fire. rewrite Hl. simpl. repeat split; assumption.
  - unfold advance. simpl. rewrite Ht. simpl. repeat split; assumption.
  - repeat split; assumption.
  - unfold LongpressTutorial.destroy, LongpressTutorial.removeEventListener, clear.
    simpl. rewrite Hl, Hi. simpl. rewrite Ht. repeat split; reflexivity.
Qed.

Lemma torn_down_run l : forall s,
  listeners s = [] -> timeouts s = [] -> timer s = None ->
  let s' := LongpressTutorial.run l s in
  listeners s' = [] ∧ timeouts s' = [] ∧ timer s' = None
  ∧ dispatched s' = dispatched s ∧ userSelect s' = userSelect s.
Proof.
  induction l as [|a l IH]; intros s Hl Ht Hi; [repeat split; assumption|].
  destruct (torn_down_step s a Hl Ht Hi) as (Hl' & Ht' & Hi' & Hd' & Hu').
  destruct (IH _ Hl' Ht' Hi') as (? & ? & ? & Hd & Hu).
  simpl. repeat split; try assumption.
  - simpl in Hd. now rewrite Hd.
  - simpl in Hu. now rewrite Hu.
Qed.

(** X6: [destroy] as the tutorial lists it removes the four listeners and
    cancels the pending timer (it leaves [userSelect] as it is): whatever
    comes after it, pointer events, time, [update] or a second [destroy],
    nothing is dispatched, no timer is started and no listener comes
    back. *)
Theorem tutorial_destroy_tears_down s l :
  attachment s ->
  let s' := LongpressTutorial.destroy s in
  listeners s' = []
  ∧ timeouts s' = []
  ∧ timer s' = None
  ∧ dispatched s' = dispatched s
  ∧ userSelect s' = userSelect s
  ∧ dispatched (LongpressTutorial.run l s') = dispatched s
  ∧ timeouts (LongpressTutorial.run l s') = []
  ∧ listeners (LongpressTutorial.run l s') = [].
Proof.
  intros [Ha Ht] s'.
  assert (E : s' = set_listeners [] (set_timer None (set_timeouts [] s))).
  { unfold s', LongpressTutorial.destroy, LongpressTutorial.removeEventListener.
    simpl. rewrite Ha.
    change (filter _ (filter _ (filter _ (filter _ four_listeners))))
      with (@nil (EventType * Listener)).
    rewrite clear_tidy.
    - destruct s; reflexivity.
    - destruct Ht as [H | [t H]]; [left | right; exists t]; exact H. }
  assert (Hl : listeners s' = []) by (rewrite E; reflexivity).
  assert (Hto : timeouts s' = []) by (rewrite E; reflexivity).
  assert (Hti : timer s' = None) by (rewrite E; reflexivity).
  destruct (torn_down_run l s' Hl Hto Hti) as (Hl' & Ht' & _ & Hd' & _).
  repeat split; try assumption; try (rewrite E; reflexivity).
  rewrite Hd', E. reflexivity.
Qed.

(** *** The further properties at concrete inputs *)

Lemma press_restarts_the_timer_witness :
  let s := run [Pointer pointerdown mouse; Wait 400]
               (longpress None (page 0 0)) in
  dispatched (run (Pointer pointerdown touch :: waits [599]) s) = []
  ∧ dispatched (run (Pointer pointerdown touch :: waits [600]) s)
    = [longpress_event touch].
Proof.
  intros s.
  assert (Hs : attachment s) by apply run_attachment, attachment_longpress.
  assert (Hms : timer_delay (cur_ms s)) by (unfold timer_delay; simpl; lia).
  split.
  - apply (press_restarts_the_timer s touch [599] Hs Hms);
      [repeat constructor; lia | simpl; lia].
  - apply (press_restarts_the_timer s touch [600] Hs Hms);
      [repeat constructor; lia | discriminate | simpl; lia].
Defined.

Lemma interruptions_repeat_witness :
  let s := run [Pointer pointerdown mouse; Wait 100]
               (longpress None (page 0 0)) in
  run [Pointer pointerup mouse; Pointer pointerleave mouse] s
  = run [Pointer pointerup mouse] s
  ∧ userSelect (run [Pointer pointerup mouse] s) = "".
Proof.
  intros s.
  assert (Hs : attachment s) by apply run_attachment, attachment_longpress.
  destruct (interruptions_repeat s pointerup mouse pointerleave mouse Hs)
    as (Hrep & _ & Hsel & _); [discriminate | discriminate |].
  split; [exact Hrep | exact Hsel].
Defined.

Lemma one_timer_at_most_witness :
  let s := run [Pointer pointerdown mouse; Wait 100;
                Pointer pointerdown touch]
               (longpress None (page 0 0)) in
  timer s = Some 1%nat ∧ userSelect s = "none".
Proof.
  intros s.
  destruct (one_timer_at_most None 0 0%nat
              [Pointer pointerdown mouse; Wait 100; Pointer pointerdown touch])
    as (_ & _ & _ & Hin).
  apply (Hin {| id := 1%nat; delay := 600; due := 700; captured := touch |}).
  replace (timeouts _)
    with [ {| id := 1%nat; delay := 600; due := 700; captured := touch |} ]
    by (vm_compute; reflexivity).
  left.
Defined.

Lemma tutorial_destroy_tears_down_witness :
  let s := run [Pointer pointerdown mouse; Wait 100]
               (longpress None (page 0 0)) in
  dispatched (LongpressTutorial.run [Wait 600; Pointer pointerdown touch; Wait 600]
                (LongpressTutorial.destroy s)) = [].
Proof.
  intros s.
  assert (Hs : attachment s) by apply run_attachment, attachment_longpress.
  apply (tutorial_destroy_tears_down s
           [Wait 600; Pointer pointerdown touch; Wait 600] Hs).
Defined.

End LongpressFacts.

(** ** [clickOutside] *)

Module ClickOutsideFacts.
Import ClickOutside.

Lemma filter_comm {A} (P Q : A -> Prop)
    `{!forall x, Decision (P x), !forall x, Decision (Q x)} (l : list A) :
  filter P (filter Q l) = filter Q (filter P l).
Proof.
  rewrite !list_filter_filter. apply list_filter_iff. tauto.
Qed.

Lemma filter_fresh c (L : list Registration) :
  Forall (fun r => (closure (callback r) < c)%nat) L ->
  filter (fun r => closure (callback r) = c) L = [].
Proof.
  induction 1 as [|r L Hr _ IH]; [reflexivity|].
  rewrite filter_cons_False by lia. exact IH.
Qed.

Lemma live_clickOutside n d :
  well_formed d -> live (clickOutside n d).1 (clickOutside n d).2.
Proof.
  intros Hwf. unfold clickOutside, addEventListener. simpl.
  set (l := {| closure := next_closure d; node := n |}).
  destruct (decide _) as [Hin | _].
  - exfalso. unfold well_formed in Hwf. rewrite Forall_forall in Hwf.
    apply Hwf in Hin. simpl in Hin. lia.
  - split; simpl; [|lia].
    rewrite filter_app, filter_fresh by exact Hwf.
    rewrite filter_cons_True by reflexivity. reflexivity.
Qed.

Lemma live_apply_op l d o : live l d -> o ≠ Detach l -> live l (apply_op d o).
Proof.
  intros [Hf Hlt] Ho. destruct o as [n' | l']; simpl.
  - unfold addEventListener. simpl.
    destruct (decide _) as [_ | _]; split; simpl; try exact Hf; try lia.
    rewrite filter_app, Hf. rewrite filter_cons_False by (simpl; lia).
    reflexivity.
  - split; [|exact Hlt]. simpl.
    rewrite filter_comm, Hf.
    rewrite filter_cons_True; [reflexivity|].
    intros E. apply Ho. f_equal. now inversion E.
Qed.

Lemma live_apply_ops ops : forall l d,
  live l d -> Detach l ∉ ops -> live l (apply_ops ops d).
Proof.
  induction ops as [|o ops IH]; intros l d Hl Hn; [exact Hl|].
  simpl. apply IH.
  - apply live_apply_op; [exact Hl|]. intros ->. apply Hn. left.
  - intros H. apply Hn. now right.
Qed.

Lemma filter_flat_map c e (L : list Registration) :
  filter (fun x => by_listener x = c)
         (flat_map (fun r => onPointerDown (callback r) e) L)
  = flat_map (fun r => onPointerDown (callback r) e)
             (filter (fun r => closure (callback r) = c) L).
Proof.
  induction L as [|r L IH]; [reflexivity|].
  simpl. rewrite filter_app, IH.
  destruct (decide (closure (callback r) = c)) as [E | E].
  - rewrite filter_cons_True by exact E. simpl. f_equal.
    unfold onPointerDown. destruct (negb _); [|reflexivity].
    rewrite filter_cons_True by exact E. reflexivity.
  - rewrite filter_cons_False by exact E.
    unfold onPointerDown. destruct (negb _); [|reflexivity].
    rewrite filter_cons_False by exact E. reflexivity.
Qed.

Lemma dispatch_live l d e :
  live l d ->
  filter (fun x => by_listener x = closure l) (dispatch_pointerdown e d)
  = if includes (node l) (composedPath e) then [] else [notification l e].
Proof.
  intros [Hf _]. unfold dispatch_pointerdown.
  rewrite filter_flat_map, filter_comm, Hf.
  rewrite filter_cons_True by (split; reflexivity). simpl.
  unfold onPointerDown. destruct (includes _ _); reflexivity.
Qed.

(** C5: while an attachment of [clickOutside] to the node [n] is live
    (whatever other attachments were made or destroyed meanwhile), a
    pointer-down event [e] that reaches the document makes this attachment
    dispatch the [clickoutside] notification on [n], carrying [e], if and
    only if [n] is not in the composed path of [e]; it is then dispatched
    once. *)
Theorem clickoutside_iff n d ops e :
  well_formed d ->
  Detach (clickOutside n d).1 ∉ ops ->
  let l := (clickOutside n d).1 in
  let out := dispatch_pointerdown e (apply_ops ops (clickOutside n d).2) in
  node l = n
  ∧ (notification l e ∈ out ↔ n ∉ composedPath e)
  ∧ filter (fun x => by_listener x = closure l) out
    = if includes n (composedPath e) then [] else [notification l e].
Proof.
  intros Hwf Hops l out.
  assert (Hout : filter (fun x => by_listener x = closure l) out
                 = if includes n (composedPath e) then [] else [notification l e]).
  { apply (dispatch_live l). apply live_apply_ops; [|exact Hops].
    now apply live_clickOutside. }
  split; [reflexivity|]. split; [|exact Hout].
  assert (Hmem :
    notification l e ∈ out
    ↔ notification l e ∈ filter (fun x => by_listener x = closure l) out).
  { rewrite list_elem_of_filter. simpl. tauto. }
  rewrite Hmem, Hout. unfold includes.
  destruct (decide (n ∈ composedPath e)) as [Hin | Hin].
  - rewrite bool_decide_eq_true_2 by exact Hin. split; [|tauto].
    intros H. inversion H.
  - rewrite bool_decide_eq_false_2 by exact Hin. split; [tauto|].
    intros _. left.
Qed.

Lemma clickoutside_iff_witness :
  let d := (clickOutside 5%nat empty_document).2 in
  let l := {| closure := 0; node := 5%nat |} in
  let d' := apply_ops [Attach 7%nat; Detach {| closure := 1; node := 7%nat |}] d in
  (notification l {| target := 1%nat; composedPath := [1; 0]%nat |}
     ∈ dispatch_pointerdown {| target := 1%nat; composedPath := [1; 0]%nat |} d')
  ∧ (notification l {| target := 6%nat; composedPath := [6; 5; 0]%nat |}
     ∉ dispatch_pointerdown {| target := 6%nat; composedPath := [6; 5; 0]%nat |} d').
Proof.
  intros d l d'.
  assert (Hwf : well_formed empty_document) by constructor.
  assert (Hops : Detach (clickOutside 5%nat empty_document).1
                 ∉ [Attach 7%nat; Detach {| closure := 1; node := 7%nat |}]).
  { apply (bool_decide_unpack _). vm_compute. exact I. }
  split.
  - apply (clickoutside_iff 5%nat empty_document _ _ Hwf Hops).
    apply (bool_decide_unpack _). vm_compute. exact I.
  - intros H.
    apply (clickoutside_iff 5%nat empty_document _ _ Hwf Hops) in H.
    apply H. right. left.
Defined.

(** ** Further properties of [clickOutside] *)

(** *** After [destroy] *)

Lemma filter_flat_map_other c e (L : list Registration) :
  filter (fun x => by_listener x ≠ c)
         (flat_map (fun r => onPointerDown (callback r) e) L)
  = flat_map (fun r => onPointerDown (callback r) e)
             (filter (fun r => closure (callback r) ≠ c) L).
Proof.
  induction L as [|r L IH]; [reflexivity|].
  simpl. rewrite filter_app, IH.
  destruct (decide (closure (callback r) ≠ c)) as [E | E].
  - rewrite filter_cons_True by exact E. simpl. f_equal.
    unfold onPointerDown. destruct (negb _); [|reflexivity].
    rewrite filter_cons_True by exact E. reflexivity.
  - rewrite filter_cons_False by exact E.
    unfold onPointerDown. destruct (negb _); [|reflexivity].
    rewrite filter_cons_False by exact E. reflexivity.
Qed.

Lemma filter_Forall {A} (P : A -> Prop) `{!forall x, Decision (P x)}
    (L : list A) :
  Forall P L -> filter P L = L.
Proof.
  induction 1 as [|x L Hx _ IH]; [reflexivity|].
  now rewrite filter_cons_True, IH.
Qed.

(** No function of the attachment [l] is registered any more. *)
Lemma gone_apply_op l d o :
  gone l d -> gone l (apply_op d o).
Proof.
  intros [Hf Hlt]. destruct o as [n' | l']; simpl.
  - unfold addEventListener. simpl.
    destruct (decide _) as [_ | _]; split; simpl; try exact Hf; try lia.
    rewrite filter_app, Hf. rewrite filter_cons_False by (simpl; lia).
    reflexivity.
  - split; [|exact Hlt]. simpl. rewrite filter_comm, Hf. reflexivity.
Qed.

Lemma gone_apply_ops ops : forall l d, gone l d -> gone l (apply_ops ops d).
Proof.
  induction ops as [|o ops IH]; intros l d H; [exact H|].
  simpl. apply IH. now apply gone_apply_op.
Qed.

Lemma gone_destroy l d : live l d ∨ gone l d -> gone l (destroy l d).
Proof.
  intros [[Hf Hlt] | H]; [|now apply (gone_apply_op l d (Detach l))].
  split; [|exact Hlt].
  change (listeners (destroy l d))
    with (filter (fun x => x ≠ registration l) (listeners d)).
  rewrite filter_comm, Hf.
  rewrite filter_cons_False; [reflexivity|]. intros Hn. now apply Hn.
Qed.

Lemma live_or_gone_apply_ops ops : forall l d,
  live l d ∨ gone l d -> live l (apply_ops ops d) ∨ gone l (apply_ops ops d).
Proof.
  induction ops as [|o ops IH]; intros l d H; [exact H|].
  simpl. apply IH. destruct H as [H | H].
  - destruct (decide (o = Detach l)) as [-> | Hne].
    + right. apply gone_destroy. now left.
    + left. now apply live_apply_op.
  - right. now apply gone_apply_op.
Qed.

(** X7: once [destroy] has been called on an attachment, no pointer-down
    makes it dispatch anything any more, whatever other attachments were
    made or destroyed before and after, a second [destroy] of the same
    handle included; and calling [destroy] twice leaves the document as
    calling it once. *)
Theorem destroy_silences n d ops1 ops2 e :
  well_formed d ->
  let l := (clickOutside n d).1 in
  let d' := apply_ops ops2 (destroy l (apply_ops ops1 (clickOutside n d).2)) in
  filter (fun x => by_listener x = closure l) (dispatch_pointerdown e d') = []
  ∧ (forall d0, destroy l (destroy l d0) = destroy l d0).
Proof.
  intros Hwf l d'. split.
  - assert (Hg : gone l d').
    { apply gone_apply_ops, gone_destroy, live_or_gone_apply_ops. left.
      now apply live_clickOutside. }
    destruct Hg as [Hf _]. unfold dispatch_pointerdown.
    rewrite filter_flat_map, filter_comm, Hf. reflexivity.
  - intros d0. unfold destroy, removeEventListener. simpl. f_equal.
    rewrite list_filter_filter. apply list_filter_iff. tauto.
Qed.

(** X8: [destroy] removes the listener of its own attachment only: what
    the other attachments dispatch on a pointer-down is the same before and
    after.  Attaching does not disturb them either, and attaching followed
    by [destroy] restores the listener list of the document. *)
Theorem destroy_spares_the_others l d e :
  filter (fun x => by_listener x ≠ closure l)
         (dispatch_pointerdown e (destroy l d))
  = filter (fun x => by_listener x ≠ closure l) (dispatch_pointerdown e d)
  ∧ (well_formed d -> forall n,
       listeners (destroy (clickOutside n d).1 (clickOutside n d).2)
       = listeners d
       ∧ filter (fun x => by_listener x ≠ closure (clickOutside n d).1)
                (dispatch_pointerdown e (clickOutside n d).2)
         = dispatch_pointerdown e d).
Proof.
  split.
  - unfold dispatch_pointerdown.
    rewrite !filter_flat_map_other. f_equal.
    simpl. rewrite !list_filter_filter. apply list_filter_iff.
    intros r. split; [tauto|]. intros [Hc Hp].
    assert (r ≠ registration l) by (intros ->; now apply Hc).
    unfold registration in *. tauto.
  - intros Hwf n.
    assert (Hfresh : Forall (fun r => closure (callback r) ≠ next_closure d)
                            (listeners d)).
    { eapply Forall_impl; [exact Hwf|]. simpl. intros r; lia. }
    assert (Hnot : registration {| closure := next_closure d; node := n |}
                   ∉ listeners d).
    { intros Hin. rewrite Forall_forall in Hfresh. now apply (Hfresh _ Hin). }
    unfold clickOutside, addEventListener. simpl.
    fold (registration {| closure := next_closure d; node := n |}).
    rewrite decide_False by exact Hnot. simpl. split.
    + rewrite filter_app, filter_cons_False by (intros H; now apply H).
      rewrite app_nil_r. apply filter_Forall.
      eapply Forall_impl; [exact Hfresh|]. simpl. intros r Hr ->. now apply Hr.
    + unfold dispatch_pointerdown. simpl.
      rewrite filter_flat_map_other. f_equal.
      rewrite filter_app, !filter_app.
      rewrite (filter_cons_True _ (registration _)) by (split; reflexivity).
      rewrite (filter_cons_False _ (registration _))
        by (simpl; intros H; now apply H).
      simpl. rewrite app_nil_r.
      rewrite filter_comm. f_equal. now apply filter_Forall.
Qed.

(** X9: on a pointer-down the document dispatches exactly the
    [clickoutside] notifications, carrying that event, of the registered
    listeners whose node is not in the composed path: never one on a node
    the event went through. *)
Theorem notifications_are_outside d e x :
  x ∈ dispatch_pointerdown e d
  ↔ ∃ l, registration l ∈ listeners d
         ∧ (node l ∉ composedPath e)
         ∧ x = notification l e.
Proof.
  unfold dispatch_pointerdown.
  rewrite list_elem_of_In, in_flat_map. split.
  - intros (r & Hr & Hx).
    apply list_elem_of_In, list_elem_of_filter in Hr as [[Hty Hcap] Hr].
    unfold onPointerDown, includes in Hx.
    destruct (decide (node (callback r) ∈ composedPath e)) as [Hin | Hout].
    + rewrite bool_decide_eq_true_2 in Hx by exact Hin. destruct Hx.
    + rewrite bool_decide_eq_false_2 in Hx by exact Hout.
      destruct Hx as [<- | []].
      exists (callback r). split; [|split; [exact Hout | reflexivity]].
      destruct r as [ty cb cap]. simpl in *. subst. exact Hr.
  - intros (l & Hl & Hout & ->).
    exists (registration l). split.
    + apply list_elem_of_In, list_elem_of_filter. split; [split; reflexivity | exact Hl].
    + unfold onPointerDown, includes. simpl.
      rewrite bool_decide_eq_false_2 by exact Hout. left. reflexivity.
Qed.

Lemma destroy_silences_witness :
  let l := (clickOutside 5%nat empty_document).1 in
  let d := (clickOutside 5%nat empty_document).2 in
  filter (fun x => by_listener x = closure l)
    (dispatch_pointerdown {| target := 1%nat; composedPath := [1; 0]%nat |}
       (apply_ops [Attach 7%nat] (destroy l (apply_ops [Detach l] d))))
  = [].
Proof.
  intros l d.
  apply (destroy_silences 5%nat empty_document [Detach l] [Attach 7%nat]
           {| target := 1%nat; composedPath := [1; 0]%nat |}).
  constructor.
Defined.

Lemma destroy_spares_the_others_witness :
  let d := (clickOutside 7%nat empty_document).2 in
  listeners (destroy (clickOutside 5%nat d).1 (clickOutside 5%nat d).2)
  = listeners d.
Proof.
  intros d.
  assert (Hwf : well_formed d) by (repeat constructor).
  apply (proj2 (destroy_spares_the_others
                  (clickOutside 5%nat d).1 d
                  {| target := 1%nat; composedPath := [1; 0]%nat |}) Hwf 5%nat).
Defined.

Lemma notifications_are_outside_witness :
  let d := (clickOutside 5%nat empty_document).2 in
  let e := {| target := 6%nat; composedPath := [6; 5; 0]%nat |} in
  notification {| closure := 0; node := 5%nat |} e ∉ dispatch_pointerdown e d.
Proof.
  intros d e H.
  apply (notifications_are_outside d e) in H as (l & _ & Hout & E).
  apply Hout. injection E as _ <-. right. left.
Defined.

End ClickOutsideFacts.

(** ** [tooltip] *)

Module TooltipFacts.
Import Tooltip.

Lemma live_app l1 : forall l2 acc, live (l1 ++ l2) acc = live l2 (live l1 acc).
Proof.
  induction l1 as [|c l1 IH]; intros l2 acc; [reflexivity|].
  destruct c; simpl; apply IH.
Qed.

Lemma peak_ge l : forall acc, (length acc <= peak l acc)%nat.
Proof.
  induction l as [|c l IH]; intros acc; [reflexivity|].
  destruct c; simpl; [lia | apply IH | lia].
Qed.

Lemma peak_app l1 : forall l2 acc,
  peak (l1 ++ l2) acc = Nat.max (peak l1 acc) (peak l2 (live l1 acc)).
Proof.
  induction l1 as [|c l1 IH]; intros l2 acc.
  - simpl. pose proof (peak_ge l2 acc). lia.
  - destruct c; simpl; rewrite IH; lia.
Qed.

Lemma props_of_app i l1 l2 :
  props_of i (l1 ++ l2) =
  match props_of i l1 with
  | Some p => Some p
  | None => props_of i l2
  end.
Proof.
  induction l1 as [|c l1 IH]; [reflexivity|].
  destruct c; simpl; try exact IH.
  destruct (decide _); [reflexivity | exact IH].
Qed.

Lemma default_last_cons {A} (a b : A) (l : list A) :
  default a (last (b :: l)) = default b (last l).
Proof. rewrite last_cons. destruct (last l); reflexivity. Qed.

Section Facts.
Variable throws : list Call -> Node -> Props -> bool.
Variable n : Node.

Lemma handle_update : handle throws n !! "update" = Some (update_method throws n).
Proof. reflexivity. Qed.

Lemma handle_destroy : handle throws n !! "destroy" = None.
Proof. reflexivity. Qed.

Lemma handle_destory : handle throws n !! "destory" = Some destory_method.
Proof. reflexivity. Qed.

Lemma update_ok s i p :
  instance s = Some i ->
  throws (calls s ++ [Destroyed i]) n (to_props p) = false ->
  call (handle throws n) "update" [p] s =
  ({| calls := calls s ++ [Destroyed i; Created (next_instance s) n (to_props p)];
      next_instance := S (next_instance s);
      instance := Some (next_instance s) |}, Normal tt).
Proof.
  intros Hi Hok. unfold call. rewrite handle_update.
  unfold update_method, setup, bind, get_instance, instance_destroy, tippy,
    set_instance, log. simpl. rewrite Hi. simpl.
  fold (to_props p). rewrite Hok. simpl. rewrite ?Hi, <- app_assoc. reflexivity.
Qed.

Lemma update_throws s i p :
  instance s = Some i ->
  throws (calls s ++ [Destroyed i]) n (to_props p) = true ->
  call (handle throws n) "update" [p] s =
  ({| calls := calls s ++ [Destroyed i; CreateThrew n (to_props p)];
      next_instance := next_instance s;
      instance := Some i |}, Throw TippyError).
Proof.
  intros Hi Hok. unfold call. rewrite handle_update.
  unfold update_method, setup, bind, get_instance, instance_destroy, tippy,
    set_instance, log. simpl. rewrite Hi. simpl.
  fold (to_props p). rewrite Hok. simpl. rewrite ?Hi, <- app_assoc. reflexivity.
Qed.

Lemma tooltip_ok n0 p :
  throws [] n (to_props p) = false ->
  tooltip throws n p (library n0) =
  ({| calls := [Created n0 n (to_props p)]; next_instance := S n0;
      instance := Some n0 |}, Normal (handle throws n)).
Proof.
  intros Hok. unfold tooltip, setup, bind, get_instance, tippy, set_instance, ret.
  simpl. fold (to_props p). rewrite Hok. reflexivity.
Qed.

Lemma tooltip_throws n0 p :
  throws [] n (to_props p) = true ->
  tooltip throws n p (library n0) =
  ({| calls := [CreateThrew n (to_props p)]; next_instance := n0;
      instance := None |}, Throw TippyError).
Proof.
  intros Hok. unfold tooltip, setup, bind, get_instance, tippy, set_instance, ret.
  simpl. fold (to_props p). rewrite Hok. reflexivity.
Qed.

Lemma single_update cfg s p :
  single cfg s ->
  throws (calls s ++ [Destroyed (default 0%nat (instance s))]) n (to_props p) = false ->
  ∃ s', call (handle throws n) "update" [p] s = (s', Normal tt)
        ∧ single (to_props p) s'.
Proof.
  intros (i & Hi & Hlive & Hcfg & Hpeak & Hfresh) Hok.
  rewrite Hi in Hok. simpl in Hok.
  eexists. split; [apply update_ok; eassumption|].
  exists (next_instance s). simpl. split; [reflexivity|].
  split; [|split; [|split]].
  - unfold live_instances in *. simpl. rewrite live_app, Hlive. simpl.
    rewrite filter_cons_False by (intros H; now apply H). reflexivity.
  - rewrite props_of_app, Hfresh by lia. simpl.
    rewrite decide_True by reflexivity. reflexivity.
  - unfold live_instances in Hlive. rewrite peak_app, Hpeak, Hlive. simpl.
    rewrite filter_cons_False by (intros H; now apply H). reflexivity.
  - intros j Hj. rewrite props_of_app, Hfresh by lia. simpl.
    rewrite decide_False by lia. reflexivity.
Qed.

End Facts.

(** C7: as long as the library creates the instances it is asked for,
    after attach and any sequence of [update] calls exactly one instance
    exists, the one the action refers to; it was created with the most
    recent configuration, there never were two instances at once, and every
    [update] first destroys the instance that existed and then creates the
    new one. *)
Theorem tooltip_recreation throws n n0 p0 :
  (forall l m p, throws l m p = false) ->
  ∃ s0 h,
    tooltip throws n p0 (library n0) = (s0, Normal h)
    ∧ (forall ps, ∃ s,
          updates h ps s0 = (s, Normal tt)
          ∧ single (to_props (default p0 (last ps))) s)
    ∧ (forall s i p,
          instance s = Some i ->
          call h "update" [p] s =
          ({| calls := calls s ++
                 [Destroyed i; Created (next_instance s) n (to_props p)];
              next_instance := S (next_instance s);
              instance := Some (next_instance s) |}, Normal tt)).
Proof.
  intros Hok. eexists. eexists. split; [apply tooltip_ok, Hok|].
  split.
  - set (s0 := {| calls := _ |}).
    assert (H0 : single (to_props p0) s0).
    { exists n0. repeat split; simpl.
      - rewrite decide_True by reflexivity. reflexivity.
      - intros j Hj. rewrite decide_False by lia. reflexivity. }
    clearbody s0. intros ps. revert p0 s0 H0.
    induction ps as [|p ps IH]; intros p0 s0 H0.
    + exists s0. split; [reflexivity | exact H0].
    + destruct (single_update throws n _ s0 p H0 (Hok _ _ _)) as (s1 & E1 & H1).
      destruct (IH p s1 H1) as (s & E & H).
      exists s. split.
      * simpl. unfold bind. rewrite E1. exact E.
      * rewrite default_last_cons. exact H.
  - intros s i p Hi. apply update_ok; [exact Hi | apply Hok].
Qed.

Lemma not_live_after_destroy i l1 l2 acc :
  (forall j m p, Created j m p ∉ l2) ->
  i ∉ live (l1 ++ Destroyed i :: l2) acc.
Proof.
  intros Hl2. rewrite live_app. simpl.
  assert (G : forall l a,
             (forall j m p, Created j m p ∉ l) -> i ∉ a -> i ∉ live l a).
  { clear. induction l as [|c l IH]; intros a Hl Ha; [exact Ha|].
    assert (Hl' : forall j m p, Created j m p ∉ l).
    { intros j m p H. apply (Hl j m p). now right. }
    destruct c as [j m p| |j]; simpl.
    - exfalso. apply (Hl j m p). left.
    - now apply IH.
    - apply IH; [exact Hl'|]. rewrite list_elem_of_filter. tauto. }
  apply G; [exact Hl2|]. rewrite list_elem_of_filter. intros [H _]. now apply H.
Qed.

(** C3 (amended): when [tippy] throws, the exception is not caught, it
    reaches the caller of the action or of [update].  The instance variable
    is not assigned by the failed call: at attach it stays empty; during
    [update] it keeps the previous instance, which has been destroyed just
    before, so that no tooltip of the attachment exists.  A later [update]
    whose creation succeeds installs a new instance, which exists. *)
Theorem create_failure_propagates
    (throws : list Call -> Node -> Props -> bool) (n : Node) :
  (forall n0 p,
     throws [] n (to_props p) = true ->
     tooltip throws n p (library n0) =
     ({| calls := [CreateThrew n (to_props p)]; next_instance := n0;
         instance := None |}, Throw TippyError))
  ∧
  (forall s i p,
     instance s = Some i ->
     throws (calls s ++ [Destroyed i])%list n (to_props p) = true ->
     ∃ s', call (handle throws n) "update" [p] s = (s', Throw TippyError)
           ∧ calls s' = (calls s ++ [Destroyed i; CreateThrew n (to_props p)])%list
           ∧ instance s' = Some i
           ∧ (i ∉ live_instances s')
           ∧ (forall p',
                throws (calls s' ++ [Destroyed i])%list n (to_props p') = false ->
                ∃ s'', call (handle throws n) "update" [p'] s' = (s'', Normal tt)
                       ∧ instance s'' = Some (next_instance s)
                       ∧ next_instance s ∈ live_instances s'')).
Proof.
  split.
  - intros n0 p H. now apply tooltip_throws.
  - intros s i p Hi Hthrow. eexists.
    split; [apply update_throws; eassumption|]. simpl.
    split; [reflexivity|]. split; [reflexivity|]. split.
    + unfold live_instances. simpl. apply not_live_after_destroy.
      intros j m q H. apply list_elem_of_singleton in H. discriminate.
    + intros p' Hok. eexists.
      split; [apply update_ok; [reflexivity | exact Hok]|]. simpl.
      split; [reflexivity|].
      unfold live_instances. simpl. rewrite live_app. simpl.
      apply elem_of_app. right. left.
Qed.

(** C3 as stated fails: with a library that throws on the content "bad",
    [update] with that content does not complete normally with an empty
    instance variable, and attaching with it returns no handle. *)
Lemma create_failure_counterexample :
  ∃ s0 h,
    tooltip (fails_on "bad") 0%nat config_A (library 0) = (s0, Normal h)
    ∧ ¬ (∃ s, call h "update" [config_bad] s0 = (s, Normal tt) ∧ instance s = None)
    ∧ ¬ (∃ s h', tooltip (fails_on "bad") 0%nat config_bad (library 0)
                 = (s, Normal h')).
Proof.
  eexists. eexists. split; [reflexivity|]. split.
  - intros (s & E & _). vm_compute in E. discriminate.
  - intros (s & h' & E). vm_compute in E. discriminate.
Qed.

(** C2 (what the code does): the object the action returns has the
    properties [update] and [destory] and no property [destroy]; calling
    [destroy] on it throws a [TypeError] and leaves the instance alone.  The
    misspelt method is the one that destroys the instance if there is one
    and does nothing otherwise. *)
Theorem handle_has_no_destroy throws n :
  handle throws n !! "destroy" = None
  ∧ dom (handle throws n) = ({[ "update"; "destory" ]} : gset string)
  ∧ (forall p s,
       (tooltip throws n p s).2 = Normal (handle throws n)
       ∨ (tooltip throws n p s).2 = Throw TippyError)
  ∧ (forall args s, call (handle throws n) "destroy" args s = (s, Throw TypeError))
  ∧ (forall args s,
       call (handle throws n) "destory" args s =
       match instance s with
       | Some i => (log (Destroyed i) s, Normal tt)
       | None => (s, Normal tt)
       end).
Proof.
  split; [reflexivity|]. split.
  { unfold handle. rewrite dom_insert_L, dom_singleton_L. reflexivity. }
  split.
  { intros p s. unfold tooltip, setup, bind, get_instance, tippy, set_instance, ret.
    simpl. destruct (throws _ _ _); [right | left]; reflexivity. }
  split.
  - intros args s. unfold call. rewrite handle_destroy. reflexivity.
  - intros args s. unfold call. rewrite handle_destory.
    unfold destory_method, bind, get_instance, instance_destroy, ret. simpl.
    destruct (instance s); reflexivity.
Qed.

Lemma tooltip_recreation_witness :
  ∃ s, (let* h := tooltip never 0%nat config_A in
        updates h [config_A; config_B]) (library 0) = (s, Normal tt)
       ∧ live_instances s = [2%nat]
       ∧ props_of 2%nat (calls s)
         = Some {| props_content := "B"; props_placement := "bottom" |}.
Proof.
  destruct (tooltip_recreation never 0%nat 0%nat config_A (fun _ _ _ => eq_refl))
    as (s0 & h & E0 & Hseq & _).
  destruct (Hseq [config_A; config_B]) as (s & E & Hsingle).
  exists s. split.
  - unfold bind. rewrite E0. exact E.
  - assert (Ecalls : s = (updates h [config_A; config_B] s0).1) by (now rewrite E).
    vm_compute in E0. inversion E0; subst s0 h. clear E0.
    vm_compute in Ecalls. subst s. split; reflexivity.
Defined.

Lemma create_failure_propagates_witness :
  let s0 := {| calls := [Created 0%nat 0%nat (to_props config_A)];
               next_instance := 1; instance := Some 0%nat |} in
  tooltip (fails_on "bad") 0%nat config_bad (library 0)
  = ({| calls := [CreateThrew 0%nat (to_props config_bad)];
        next_instance := 0; instance := None |}, Throw TippyError)
  ∧ ∃ s', call (handle (fails_on "bad") 0%nat) "update" [config_bad] s0
          = (s', Throw TippyError)
          ∧ instance s' = Some 0%nat
          ∧ live_instances s' = [].
Proof.
  intros s0.
  destruct (create_failure_propagates (fails_on "bad") 0%nat) as [Hattach Hupdate].
  split.
  - apply Hattach. reflexivity.
  - destruct (Hupdate s0 0%nat config_bad eq_refl eq_refl)
      as (s' & E & Hcalls & Hinst & _).
    exists s'. split; [exact E|]. split; [exact Hinst|].
    unfold live_instances. rewrite Hcalls. reflexivity.
Defined.

(** ** Further properties of [tooltip] *)

Local Open Scope list_scope.

Section MoreFacts.
Variable throws : list Call -> Node -> Props -> bool.
Variable n : Node.

Lemma destory_call s i :
  instance s = Some i ->
  call (handle throws n) "destory" [] s = (log (Destroyed i) s, Normal tt).
Proof.
  intros Hi. unfold call. rewrite handle_destory.
  unfold destory_method, bind, get_instance, instance_destroy. simpl.
  now rewrite Hi.
Qed.

Lemma peak_after_destroy l i c :
  (live l [] = [] ∨ live l [] = [i]) -> (peak l [] <= 1)%nat ->
  (peak (l ++ [Destroyed i; c]) [] <= 1)%nat
  ∧ live (l ++ [Destroyed i]) [] = [].
Proof.
  intros Hlive Hpeak. rewrite peak_app, live_app.
  destruct Hlive as [-> | ->]; simpl.
  - destruct c; simpl; split; try reflexivity; lia.
  - rewrite filter_cons_False by (intros H; now apply H).
    destruct c; simpl; split; try reflexivity; lia.
Qed.

Lemma attempt_at_most_one s r :
  at_most_one s -> at_most_one (attempt (handle throws n) s r).
Proof.
  intros (i & Hi & Hlive & Hpeak). destruct r as [p|]; simpl.
  - destruct (throws (calls s ++ [Destroyed i]) n (to_props p)) eqn:E.
    + rewrite (update_throws throws n s i p Hi E). simpl.
      exists i. split; [reflexivity|].
      unfold live_instances in *. simpl.
      destruct (peak_after_destroy (calls s) i
                  (CreateThrew n (to_props p)) Hlive Hpeak) as [Hp Hl].
      split; [|exact Hp]. left.
      change [Destroyed i; CreateThrew n (to_props p)]
        with ([Destroyed i] ++ [CreateThrew n (to_props p)]).
      rewrite app_assoc, live_app, Hl. reflexivity.
    + rewrite (update_ok throws n s i p Hi E). simpl.
      exists (next_instance s). split; [reflexivity|].
      unfold live_instances in *. simpl.
      destruct (peak_after_destroy (calls s) i
                  (Created (next_instance s) n (to_props p)) Hlive Hpeak)
        as [Hp Hl].
      split; [|exact Hp]. right.
      change [Destroyed i; Created (next_instance s) n (to_props p)]
        with ([Destroyed i] ++ [Created (next_instance s) n (to_props p)]).
      rewrite app_assoc, live_app, Hl. reflexivity.
  - rewrite (destory_call s i Hi). simpl.
    exists i. split; [exact Hi|].
    unfold live_instances in *. simpl. split.
    + left. rewrite live_app.
      destruct Hlive as [-> | ->]; simpl; [reflexivity|].
      now rewrite filter_cons_False by (intros H; now apply H).
    + rewrite peak_app.
      destruct Hlive as [-> | ->]; simpl; [lia|].
      rewrite filter_cons_False by (intros H; now apply H). simpl. lia.
Qed.

End MoreFacts.

(** X10: whatever the library does, throwing included, and whatever
    sequence of [update] and [destory] calls the owner of the handle makes
    (catching what they throw), there are never two instances of the
    attachment at once, and an instance that exists is the one [instance]
    refers to. *)
Theorem never_two_instances throws n n0 p0 s0 h rs :
  tooltip throws n p0 (library n0) = (s0, Normal h) ->
  let s := attempts h rs s0 in
  (peak (calls s) [] <= 1)%nat
  ∧ ∃ i, instance s = Some i
         ∧ (live_instances s = [] ∨ live_instances s = [i]).
Proof.
  intros Hattach s.
  assert (Hs0 : at_most_one s0 ∧ h = handle throws n).
  { destruct (throws [] n (to_props p0)) eqn:E.
    - rewrite (tooltip_throws throws n n0 p0 E) in Hattach. discriminate.
    - rewrite (tooltip_ok throws n n0 p0 E) in Hattach.
      injection Hattach as <- <-. split; [|reflexivity].
      exists n0. split; [reflexivity|]. split; [right; reflexivity|].
      simpl. lia. }
  destruct Hs0 as [Hs0 ->].
  assert (H : at_most_one s).
  { unfold s. clear Hattach s. revert s0 Hs0.
    induction rs as [|r rs IH]; intros s0 Hs0; [exact Hs0|].
    simpl. apply IH. now apply attempt_at_most_one. }
  destruct H as (i & Hi & Hlive & Hpeak).
  split; [exact Hpeak|]. exists i. split; assumption.
Qed.

(** X11: [destory] destroys the instance but leaves [instance] referring
    to it: a second [destory] calls [destroy()] on the same instance again,
    and so does the next [update] before it creates the new one; the
    instance stays destroyed throughout. *)
Theorem destory_keeps_the_reference throws n s i :
  instance s = Some i ->
  let h := handle throws n in
  let s1 := (call h "destory" [] s).1 in
  let s2 := (call h "destory" [] s1).1 in
  instance s1 = Some i
  ∧ calls s1 = calls s ++ [Destroyed i]
  ∧ calls s2 = calls s ++ [Destroyed i; Destroyed i]
  ∧ (i ∉ live_instances s1)
  ∧ live_instances s2 = live_instances s1
  ∧ (forall p,
       throws (calls s1 ++ [Destroyed i]) n (to_props p) = false ->
       calls (call h "update" [p] s1).1
       = calls s ++ [Destroyed i; Destroyed i;
                     Created (next_instance s) n (to_props p)]).
Proof.
  intros Hi h s1 s2. unfold s2, s1, h.
  rewrite (destory_call throws n s i Hi). simpl.
  rewrite (destory_call throws n (log (Destroyed i) s) i Hi). simpl.
  split; [exact Hi|]. split; [reflexivity|].
  split; [now rewrite <- app_assoc|].
  assert (Hgone : i ∉ live (calls s ++ [Destroyed i]) []).
  { apply not_live_after_destroy. intros j m q H. inversion H. }
  split; [exact Hgone|].
  split.
  { unfold live_instances. simpl. rewrite (live_app (calls s ++ [Destroyed i])).
    simpl. induction (live (calls s ++ [Destroyed i]) []) as [|j L IH];
      [reflexivity|].
    apply not_elem_of_cons in Hgone as [Hne HL].
    rewrite filter_cons_True by congruence. now rewrite IH. }
  intros p Hok.
  rewrite (update_ok throws n (log (Destroyed i) s) i p Hi Hok). simpl.
  now rewrite <- app_assoc.
Qed.

Lemma never_two_instances_witness :
  let s := attempts (handle (fails_on "bad") 0%nat)
             [AskUpdate config_bad; AskDestory; AskUpdate config_B]
             {| calls := [Created 0%nat 0%nat (to_props config_A)];
                next_instance := 1; instance := Some 0%nat |} in
  (peak (calls s) [] <= 1)%nat
  ∧ ∃ i, instance s = Some i
         ∧ (live_instances s = [] ∨ live_instances s = [i]).
Proof.
  apply (never_two_instances (fails_on "bad") 0%nat 0%nat config_A
           _ _ [AskUpdate config_bad; AskDestory; AskUpdate config_B]).
  reflexivity.
Defined.

Lemma destory_keeps_the_reference_witness :
  let s := {| calls := [Created 0%nat 0%nat (to_props config_A)];
              next_instance := 1; instance := Some 0%nat |} in
  let s1 := (call (handle never 0%nat) "destory" [] s).1 in
  instance s1 = Some 0%nat
  ∧ calls (call (handle never 0%nat) "destory" [] s1).1
    = [Created 0%nat 0%nat (to_props config_A);
       Destroyed 0%nat; Destroyed 0%nat].
Proof.
  intros s s1.
  destruct (destory_keeps_the_reference never 0%nat s 0%nat eq_refl)
    as (Hi & _ & Hc & _).
  split; [exact Hi | exact Hc].
Defined.

End TooltipFacts.

(** ** The gallery *)

Module GalleryFacts.
Import Gallery.
Local Open Scope list_scope.

Implicit Types (l copy : list Movie) (m a b : Movie) (i j : nat).

(** *** [swap] *)

Lemma swap_lookup_i copy i j a b :
  copy !! i = Some a -> copy !! j = Some b -> swap i j copy !! i = Some b.
Proof.
  intros Hi Hj. unfold swap. rewrite Hi, Hj.
  destruct (decide (i = j)) as [->|Hne].
  - rewrite list_lookup_insert_eq; [congruence|].
    rewrite length_insert. eauto using lookup_lt_Some.
  - rewrite list_lookup_insert_ne by congruence.
    rewrite list_lookup_insert_eq; eauto using lookup_lt_Some.
Qed.

Lemma swap_lookup_j copy i j a b :
  copy !! i = Some a -> copy !! j = Some b -> swap i j copy !! j = Some a.
Proof.
  intros Hi Hj. unfold swap. rewrite Hi, Hj.
  rewrite list_lookup_insert_eq; [reflexivity|].
  rewrite length_insert. eauto using lookup_lt_Some.
Qed.

Lemma swap_lookup_other copy i j k :
  k ≠ i -> k ≠ j -> swap i j copy !! k = copy !! k.
Proof.
  intros Hi Hj. unfold swap.
  destruct (copy !! j), (copy !! i); try reflexivity.
  rewrite !list_lookup_insert_ne by congruence. reflexivity.
Qed.

Lemma length_swap copy i j : length (swap i j copy) = length copy.
Proof.
  unfold swap. destruct (copy !! j), (copy !! i); try reflexivity.
  rewrite !length_insert. reflexivity.
Qed.

Lemma swap_comm copy i j : swap i j copy = swap j i copy.
Proof.
  unfold swap.
  destruct (copy !! j) as [b|] eqn:Hj, (copy !! i) as [a|] eqn:Hi;
    try reflexivity.
  destruct (decide (i = j)) as [->|Hne].
  - congruence.
  - apply list_insert_insert_ne. congruence.
Qed.

Lemma swap_same copy i : swap i i copy = copy.
Proof.
  unfold swap. destruct (copy !! i) as [a|] eqn:Hi; [|reflexivity].
  rewrite list_insert_insert_eq. now apply list_insert_id.
Qed.

Lemma swap_split copy i j a b :
  (i < j)%nat -> copy !! i = Some a -> copy !! j = Some b ->
  ∃ l1 l2 l3,
    copy = l1 ++ a :: l2 ++ b :: l3
    ∧ swap i j copy = l1 ++ b :: l2 ++ a :: l3.
Proof.
  intros Hlt Hi Hj.
  exists (take i copy), (take (j - S i) (drop (S i) copy)),
         (drop (S (j - S i)) (drop (S i) copy)).
  assert (Hj' : drop (S i) copy !! (j - S i)%nat = Some b).
  { rewrite lookup_drop. replace (S i + (j - S i))%nat with j by lia. exact Hj. }
  assert (E : copy = take i copy ++ a :: take (j - S i) (drop (S i) copy)
                     ++ b :: drop (S (j - S i)) (drop (S i) copy)).
  { rewrite (take_drop_middle _ _ _ Hj'). now rewrite (take_drop_middle _ _ _ Hi). }
  split; [exact E|].
  assert (Hl1 : length (take i copy) = i).
  { apply length_take_le. apply lookup_lt_Some in Hi. lia. }
  assert (Hl2 : length (take (j - S i) (drop (S i) copy)) = (j - S i)%nat).
  { apply length_take_le. apply lookup_lt_Some in Hj'. lia. }
  unfold swap. rewrite Hi, Hj.
  set (l1 := take i copy) in *. set (l2 := take (j - S i) _) in *.
  set (l3 := drop (S (j - S i)) _) in *.
  rewrite E.
  rewrite (insert_app_r_alt l1 _ i) by lia.
  replace (i - length l1)%nat with 0%nat by lia. simpl.
  rewrite (insert_app_r_alt l1 _ j) by lia.
  replace (j - length l1)%nat with (S (j - S i)) by lia. simpl.
  rewrite (insert_app_r_alt l2 _ (j - S i)) by lia.
  replace (j - S i - length l2)%nat with 0%nat by lia. reflexivity.
Qed.

Lemma swap_Permutation copy i j : swap i j copy ≡ₚ copy.
Proof.
  destruct (copy !! i) as [a|] eqn:Hi;
    [|unfold swap; rewrite Hi; now destruct (copy !! j)].
  destruct (copy !! j) as [b|] eqn:Hj; [|unfold swap; now rewrite Hj].
  destruct (Nat.lt_trichotomy i j) as [H | [-> | H]].
  - destruct (swap_split copy i j a b H Hi Hj) as (l1 & l2 & l3 & E & ->).
    rewrite E. solve_Permutation.
  - now rewrite swap_same.
  - rewrite swap_comm.
    destruct (swap_split copy j i b a H Hj Hi) as (l1 & l2 & l3 & E & ->).
    rewrite E. solve_Permutation.
Qed.

Lemma swap_swap copy i j a b :
  copy !! i = Some a -> copy !! j = Some b -> swap i j (swap i j copy) = copy.
Proof.
  intros Hi Hj. apply list_eq. intros k.
  pose proof (swap_lookup_i _ _ _ _ _ Hi Hj) as Si.
  pose proof (swap_lookup_j _ _ _ _ _ Hi Hj) as Sj.
  destruct (decide (k = i)) as [->|Hki].
  - rewrite (swap_lookup_i _ _ _ _ _ Si Sj). congruence.
  - destruct (decide (k = j)) as [->|Hkj].
    + rewrite (swap_lookup_j _ _ _ _ _ Si Sj). congruence.
    + rewrite !swap_lookup_other by assumption. reflexivity.
Qed.

(** *** [move] *)

Abbreviation has_id ident := (fun m : Movie => id m = ident).

Lemma lookup_ids l i a : l !! i = Some a -> map id l !! i = Some (id a).
Proof.
  intros H. change (map id l) with (id <$> l).
  now rewrite list_lookup_fmap, H.
Qed.

Lemma findIndex_Some l ident i a :
  list_find (has_id ident) l = Some (i, a) ->
  findIndex (has_id ident) l = Z.of_nat i.
Proof. intros H. unfold findIndex. now rewrite H. Qed.

Lemma findIndex_None l ident :
  ident ∉ map id l -> findIndex (has_id ident) l = -1.
Proof.
  intros H. unfold findIndex.
  destruct (list_find _ l) as [[i a]|] eqn:E; [|reflexivity].
  apply list_find_Some in E as (Hi & Ha & _). exfalso. apply H.
  rewrite <- Ha. eapply list_elem_of_lookup_2, lookup_ids, Hi.
Qed.

(** With distinct identifiers a movie is found where it is. *)
Lemma find_unique l i a :
  NoDup (map id l) -> l !! i = Some a ->
  list_find (has_id (id a)) l = Some (i, a).
Proof.
  intros Hnd Hi. apply list_find_Some. split; [exact Hi|]. split; [reflexivity|].
  intros k y Hk Hlt Hid.
  assert (k = i); [|lia].
  apply (NoDup_lookup (map id l) k i (id a) Hnd).
  - rewrite <- Hid. now apply lookup_ids.
  - now apply lookup_ids.
Qed.

(** What [move] does once the movie is found at [i] and its neighbour at
    [i + direction] exists. *)
Lemma move_found g ident direction i a :
  list_find (has_id ident) (movies g) = Some (i, a) ->
  0 <= Z.of_nat i + direction < Z.of_nat (length (movies g)) ->
  move ident direction g
  = set_movies (swap i (Z.to_nat (Z.of_nat i + direction)) (movies g)) g.
Proof.
  intros Hfind Hj. unfold move. rewrite (findIndex_Some _ _ _ _ Hfind).
  destruct (Z.ltb_spec (Z.of_nat i) 0); [lia|].
  destruct (Z.ltb_spec (Z.of_nat i + direction) 0); [lia|].
  destruct (Z.geb_spec (Z.of_nat i + direction) (Z.of_nat (length (movies g))));
    [lia|].
  simpl. now rewrite Nat2Z.id.
Qed.

Lemma set_movies_same g : set_movies (movies g) g = g.
Proof. destruct g; reflexivity. Qed.

(** X12: with distinct identifiers, [move] changes nothing for an
    identifier that is not in the gallery, for the first movie moved up and
    for the last movie moved down (the cases in which the page disables the
    buttons). *)
Theorem move_at_the_edges g ident direction :
  NoDup (ids g) ->
  (ident ∉ ids g -> move ident direction g = g)
  ∧ (head (ids g) = Some ident -> move ident (-1) g = g)
  ∧ (last (ids g) = Some ident -> move ident 1 g = g).
Proof.
  intros Hnd. unfold ids in *. split; [|split].
  - intros H. unfold move. rewrite (findIndex_None _ _ H). reflexivity.
  - intros H. destruct (movies g) as [|a l] eqn:E; [discriminate|].
    simpl in H. injection H as <-.
    unfold move. rewrite E.
    rewrite (findIndex_Some _ _ 0%nat a); [reflexivity|].
    apply find_unique; [exact Hnd | reflexivity].
  - intros H. change (map id (movies g)) with (id <$> movies g) in H.
    rewrite fmap_last in H.
    destruct (last (movies g)) as [a|] eqn:E; [|discriminate].
    simpl in H. injection H as <-.
    rewrite last_lookup in E.
    unfold move. rewrite (findIndex_Some _ _ _ a (find_unique _ _ _ Hnd E)).
    apply lookup_lt_Some in E as Hlen.
    destruct (Z.ltb_spec (Z.of_nat (Nat.pred (length (movies g)))) 0); [reflexivity|].
    destruct (Z.ltb_spec (Z.of_nat (Nat.pred (length (movies g))) + 1) 0);
      [reflexivity|].
    destruct (Z.geb_spec (Z.of_nat (Nat.pred (length (movies g))) + 1)
                         (Z.of_nat (length (movies g)))); [reflexivity | lia].
Qed.

(** X13: when the movie is found at [i] and [i + direction] is an index
    of the list, [move] exchanges the movies at the two indices and leaves
    all others where they are: no movie is lost or duplicated, and the
    input field is not touched. *)
Theorem move_swaps_neighbours g ident direction i a :
  list_find (has_id ident) (movies g) = Some (i, a) ->
  0 <= Z.of_nat i + direction < Z.of_nat (length (movies g)) ->
  let j := Z.to_nat (Z.of_nat i + direction) in
  let g' := move ident direction g in
  movies g' !! j = Some a
  ∧ movies g' !! i = movies g !! j
  ∧ (forall k, k ≠ i -> k ≠ j -> movies g' !! k = movies g !! k)
  ∧ movies g' ≡ₚ movies g
  ∧ newTitle g' = newTitle g.
Proof.
  intros Hfind Hj j g'. unfold g'. rewrite (move_found _ _ _ _ _ Hfind Hj).
  fold j. simpl.
  apply list_find_Some in Hfind as (Hi & _ & _).
  destruct (lookup_lt_is_Some_2 (movies g) j) as [b Hb]; [unfold j; lia|].
  split; [eapply swap_lookup_j; eassumption|].
  split; [rewrite Hb; eapply swap_lookup_i; eassumption|].
  split; [intros k Hki Hkj; now apply swap_lookup_other|].
  split; [apply swap_Permutation | reflexivity].
Qed.

(** X14: moving a movie up and then down again gives back the gallery as
    it was, provided the first move took place; down and then up does so
    too when the identifiers are distinct. *)
Theorem move_there_and_back g ident i a :
  list_find (has_id ident) (movies g) = Some (i, a) ->
  ((1 <= i)%nat -> move ident 1 (move ident (-1) g) = g)
  ∧ (NoDup (ids g) -> (i + 1 < length (movies g))%nat ->
     move ident (-1) (move ident 1 g) = g).
Proof.
  intros Hfind. pose proof Hfind as Hfind0.
  apply list_find_Some in Hfind as (Hi & Ha & Hfirst).
  apply lookup_lt_Some in Hi as Hlen.
  split.
  - intros H1.
    rewrite (move_found g ident (-1) i a Hfind0) by lia.
    replace (Z.to_nat (Z.of_nat i + -1)) with (i - 1)%nat by lia.
    destruct (lookup_lt_is_Some_2 (movies g) (i - 1)) as [b Hb]; [lia|].
    assert (Hfind' : list_find (has_id ident)
                       (swap i (i - 1) (movies g)) = Some ((i - 1)%nat, a)).
    { apply list_find_Some. split; [eapply swap_lookup_j; eassumption|].
      split; [exact Ha|]. intros k y Hk Hlt.
      rewrite swap_lookup_other in Hk by lia. apply (Hfirst k y Hk). lia. }
    rewrite (move_found _ ident 1 (i - 1) a); simpl;
      [| exact Hfind' | rewrite length_swap; lia].
    replace (Z.to_nat (Z.of_nat (i - 1) + 1)) with i by lia.
    unfold set_movies. simpl.
    rewrite (swap_comm _ (i - 1) i).
    rewrite (swap_swap _ _ _ _ _ Hi Hb). destruct g; reflexivity.
  - intros Hnd H1.
    rewrite (move_found g ident 1 i a Hfind0) by lia.
    replace (Z.to_nat (Z.of_nat i + 1)) with (i + 1)%nat by lia.
    destruct (lookup_lt_is_Some_2 (movies g) (i + 1)) as [b Hb]; [lia|].
    assert (Hab : id b ≠ ident).
    { intros Hid. assert ((i + 1)%nat = i); [|lia].
      apply (NoDup_lookup (ids g) (i + 1) i ident Hnd).
      - rewrite <- Hid. now apply lookup_ids.
      - rewrite <- Ha. now apply lookup_ids. }
    assert (Hfind' : list_find (has_id ident)
                       (swap i (i + 1) (movies g)) = Some ((i + 1)%nat, a)).
    { apply list_find_Some. split; [eapply swap_lookup_j; eassumption|].
      split; [exact Ha|]. intros k y Hk Hlt.
      destruct (decide (k = i)) as [->|Hki].
      - rewrite (swap_lookup_i _ _ _ _ _ Hi Hb) in Hk. now injection Hk as <-.
      - rewrite swap_lookup_other in Hk by lia. apply (Hfirst k y Hk). lia. }
    rewrite (move_found _ ident (-1) (i + 1) a); simpl;
      [| exact Hfind' | rewrite length_swap; lia].
    replace (Z.to_nat (Z.of_nat (i + 1) + -1)) with i by lia.
    unfold set_movies. simpl.
    rewrite (swap_comm _ (i + 1) i).
    rewrite (swap_swap _ _ _ _ _ Hi Hb). destruct g; reflexivity.
Qed.

(** *** [remove] *)

Lemma filter_all l ident :
  ident ∉ map id l -> filter (fun m => id m ≠ ident) l = l.
Proof.
  induction l as [|a l IH]; intros H; [reflexivity|].
  simpl in H. apply not_elem_of_cons in H as [Ha Hl].
  rewrite filter_cons_True by congruence. now rewrite IH.
Qed.

(** X15: after [remove] no movie has the identifier; an identifier that
    is not in the gallery changes nothing; with distinct identifiers exactly
    the one movie is taken out and the others keep their order; removing
    twice is removing once, and two removals commute. *)
Theorem remove_deletes_the_movie g ident :
  (ident ∉ ids (remove ident g))
  ∧ (ident ∉ ids g -> remove ident g = g)
  ∧ (forall l1 a l2,
       NoDup (ids g) -> movies g = l1 ++ a :: l2 -> id a = ident ->
       movies (remove ident g) = l1 ++ l2)
  ∧ remove ident (remove ident g) = remove ident g
  ∧ (forall other, remove ident (remove other g) = remove other (remove ident g)).
Proof.
  split; [|split; [|split; [|split]]].
  - unfold ids, remove. simpl. intros H.
    apply list_elem_of_In, in_map_iff in H as (a & Ha & Hin).
    apply list_elem_of_In, list_elem_of_filter in Hin as [Hne _]. contradiction.
  - intros H. unfold remove. rewrite (filter_all _ _ H). apply set_movies_same.
  - intros l1 a l2 Hnd E Ha. unfold remove, ids in *. simpl. rewrite E in *.
    rewrite map_app in Hnd. simpl in Hnd.
    apply NoDup_app in Hnd as (_ & Hdisj & Hnd2).
    apply NoDup_cons in Hnd2 as [Ha2 _].
    rewrite filter_app, filter_cons_False by (intros H; now apply H).
    rewrite (filter_all l1), (filter_all l2).
    + reflexivity.
    + now rewrite <- Ha.
    + intros H. apply (Hdisj _ H). rewrite Ha. left.
  - unfold remove, set_movies. simpl. f_equal.
    rewrite list_filter_filter. apply list_filter_iff. tauto.
  - intros other. unfold remove, set_movies. simpl. f_equal.
    rewrite !list_filter_filter. apply list_filter_iff. tauto.
Qed.

(** *** [shuffle] *)

Lemma random_index rand k i :
  random rand ->
  0 <= Qfloor (rand k * inject_Z (Z.of_nat i + 1)) <= Z.of_nat i.
Proof.
  intros H. destruct (H k) as [H0 H1].
  assert (Hpos : (0 < inject_Z (Z.of_nat i + 1))%Q).
  { change 0%Q with (inject_Z 0). rewrite <- Zlt_Qlt. lia. }
  split.
  - change 0 with (Qfloor 0). apply Qfloor_resp_le.
    apply Qmult_le_0_compat; [exact H0 | now apply Qlt_le_weak].
  - assert (Hlt : (rand k * inject_Z (Z.of_nat i + 1)
                   < inject_Z (Z.of_nat i + 1))%Q).
    { rewrite <- (Qmult_1_l (inject_Z (Z.of_nat i + 1))) at 2.
      apply Qmult_lt_compat_r; assumption. }
    assert (Hfl : (inject_Z (Qfloor (rand k * inject_Z (Z.of_nat i + 1)))
                   < inject_Z (Z.of_nat i + 1))%Q).
    { eapply Qle_lt_trans; [apply Qfloor_le | exact Hlt]. }
    rewrite <- Zlt_Qlt in Hfl. lia.
Qed.

Lemma shuffle_loop_Permutation rand i : forall k copy,
  shuffle_loop rand k i copy ≡ₚ copy.
Proof.
  induction i as [|i IH]; intros k copy; [reflexivity|].
  simpl. rewrite IH. apply swap_Permutation.
Qed.

(** X16: whatever numbers [Math.random()] returns, every index [shuffle]
    draws lies between 0 and [i], and the shuffled gallery holds the same
    movies, each as often as before; a gallery of at most one movie is left
    as it is. *)
Theorem shuffle_permutes rand g :
  random rand ->
  (forall k i,
     0 <= Qfloor (rand k * inject_Z (Z.of_nat i + 1)) <= Z.of_nat i)
  ∧ movies (shuffle rand g) ≡ₚ movies g
  ∧ length (movies (shuffle rand g)) = length (movies g)
  ∧ newTitle (shuffle rand g) = newTitle g
  ∧ ((length (movies g) <= 1)%nat -> shuffle rand g = g).
Proof.
  intros Hrand. split; [intros k i; now apply random_index|].
  unfold shuffle. simpl.
  pose proof (shuffle_loop_Permutation rand (length (movies g) - 1) 0 (movies g))
    as HP.
  split; [exact HP|]. split; [now rewrite HP|]. split; [reflexivity|].
  intros Hlen. replace (length (movies g) - 1)%nat with 0%nat by lia.
  simpl. apply set_movies_same.
Qed.

(** *** [sort] *)

Section SortFacts.
Variable cmp : Movie -> Movie -> Z.

Lemma insert_Permutation x l : insert cmp x l ≡ₚ x :: l.
Proof.
  induction l as [|y l IH]; [reflexivity|].
  simpl. destruct (cmp x y <=? 0); [reflexivity|].
  rewrite IH. apply perm_swap.
Qed.

Lemma sort_Permutation l : sort cmp l ≡ₚ l.
Proof.
  induction l as [|x l IH]; [reflexivity|].
  simpl. rewrite insert_Permutation. now rewrite IH.
Qed.

Hypothesis cmp_total : forall a b, cmp a b <= 0 ∨ cmp b a <= 0.
Hypothesis cmp_trans : forall a b c, cmp a b <= 0 -> cmp b c <= 0 -> cmp a c <= 0.

Lemma insert_sorted x l :
  StronglySorted (fun a b => cmp a b <= 0) l ->
  StronglySorted (fun a b => cmp a b <= 0) (insert cmp x l).
Proof.
  induction 1 as [|y l Hl IH Hy]; simpl.
  - repeat constructor.
  - destruct (Z.leb_spec (cmp x y) 0) as [Hxy | Hxy].
    + constructor; [now constructor|]. constructor; [exact Hxy|].
      eapply Forall_impl; [exact Hy|]. intros z Hz. simpl in Hz.
      now apply (cmp_trans x y z).
    + constructor; [exact IH|].
      rewrite insert_Permutation. constructor; [|exact Hy].
      destruct (cmp_total x y); [lia | assumption].
Qed.

Lemma sort_sorted l : StronglySorted (fun a b => cmp a b <= 0) (sort cmp l).
Proof.
  induction l as [|x l IH]; simpl; [constructor | now apply insert_sorted].
Qed.

Lemma sort_of_sorted l :
  StronglySorted (fun a b => cmp a b <= 0) l -> sort cmp l = l.
Proof.
  induction 1 as [|y l Hl IH Hy]; [reflexivity|].
  simpl. rewrite IH. destruct l as [|z l]; [reflexivity|].
  simpl. apply Forall_cons in Hy as [Hyz _].
  destruct (Z.leb_spec (cmp y z) 0); [reflexivity | lia].
Qed.

End SortFacts.

Lemma StronglySorted_weaken (R R' : Movie -> Movie -> Prop) l :
  (forall a b, R a b -> R' a b) -> StronglySorted R l -> StronglySorted R' l.
Proof.
  intros HR. induction 1 as [|x l Hl IH Hx]; constructor; [exact IH|].
  eapply Forall_impl; [exact Hx|]. intros y. apply HR.
Qed.

Lemma insert_same_year x l v :
  filter (fun m => year m = v) (insert (fun a b => year a - year b) x l)
  = filter (fun m => year m = v) (x :: l).
Proof.
  induction l as [|y l IH]; [reflexivity|].
  simpl. destruct (Z.leb_spec (year x - year y) 0) as [Hle | Hgt];
    [reflexivity|].
  rewrite (filter_cons _ y (insert _ x l)), IH.
  rewrite (filter_cons _ x (y :: l)), (filter_cons _ x l), (filter_cons _ y l).
  destruct (decide (year x = v)), (decide (year y = v)); try reflexivity.
  lia.
Qed.

(** X17: [sortByYear] puts the movies in ascending order of year; it
    holds the same movies as before, movies of the same year keep their
    relative order, and sorting twice is sorting once. *)
Theorem sortByYear_sorts g :
  movies (sortByYear g) ≡ₚ movies g
  ∧ StronglySorted by_year (movies (sortByYear g))
  ∧ (forall v,
       filter (fun m => year m = v) (movies (sortByYear g))
       = filter (fun m => year m = v) (movies g))
  ∧ sortByYear (sortByYear g) = sortByYear g
  ∧ newTitle (sortByYear g) = newTitle g.
Proof.
  assert (Hsorted : forall l,
    StronglySorted (fun a b => year a - year b <= 0)
                   (sort (fun a b => year a - year b) l)).
  { intros l. apply sort_sorted; intros; lia. }
  split; [apply sort_Permutation|]. split; [|split; [|split]].
  - unfold sortByYear. simpl.
    eapply StronglySorted_weaken; [|apply Hsorted].
    unfold by_year. intros; lia.
  - intros v. unfold sortByYear. simpl.
    induction (movies g) as [|x l IH]; [reflexivity|].
    simpl sort. rewrite insert_same_year, !(filter_cons _ x), IH. reflexivity.
  - unfold sortByYear, set_movies. simpl. f_equal.
    apply sort_of_sorted, Hsorted.
  - reflexivity.
Qed.

Section WithPlatform.
Variable trim : string -> string.
Variable utf16_length : string -> nat.
Variable localeCompare : string -> string -> Z.

(** X18: [sortByTitle] keeps the same movies whatever [localeCompare]
    does; when [localeCompare] orders the titles consistently the result
    is ordered by it, and sorting twice is sorting once. *)
Theorem sortByTitle_sorts g :
  movies (sortByTitle localeCompare g) ≡ₚ movies g
  ∧ (consistent localeCompare ->
     StronglySorted (by_title localeCompare)
                    (movies (sortByTitle localeCompare g))
     ∧ sortByTitle localeCompare (sortByTitle localeCompare g)
       = sortByTitle localeCompare g).
Proof.
  split; [apply sort_Permutation|].
  intros [Htotal Htrans].
  assert (Hsorted : forall l,
    StronglySorted (by_title localeCompare)
      (sort (fun a b => localeCompare (title a) (title b)) l)).
  { intros l. apply sort_sorted.
    - intros a b. apply Htotal.
    - intros a b c. apply Htrans. }
  split; [apply Hsorted|].
  unfold sortByTitle, set_movies. simpl. f_equal.
  apply sort_of_sorted, Hsorted.
Qed.

Lemma addMovie_cases uuid this_year g :
  let g' := addMovie trim utf16_length uuid this_year g in
  (submit_disabled trim utf16_length g = true ∧ g' = g)
  ∨ (submit_disabled trim utf16_length g = false
     ∧ g' = {| movies := {| id := uuid; title := trim (newTitle g);
                            year := this_year; genre := "Drama" |} :: movies g;
               newTitle := "" |}).
Proof.
  unfold addMovie, submit_disabled.
  destruct (_ <? _)%nat; [left | right]; split; reflexivity.
Qed.

(** X19: [addMovie] changes the state exactly when the submit button is
    enabled, and the list then grows by one movie; taking the new
    identifier out again, if it was not in use, gives back the movies as
    they were; and, the empty text being shorter than two once trimmed, a
    second submit without typing adds nothing: the input field was
    emptied. *)
Theorem addMovie_adds uuid this_year g :
  let g' := addMovie trim utf16_length uuid this_year g in
  (g' = g ↔ submit_disabled trim utf16_length g = true)
  ∧ (submit_disabled trim utf16_length g = false ->
     length (movies g') = S (length (movies g)) ∧ ids g' = uuid :: ids g)
  ∧ (uuid ∉ ids g -> movies (remove uuid g') = movies g)
  ∧ ((utf16_length (trim "") < 2)%nat ->
     forall uuid2 year2, addMovie trim utf16_length uuid2 year2 g' = g').
Proof.
  intros g'.
  destruct (addMovie_cases uuid this_year g) as [[Hd E] | [Hd E]];
    fold g' in E; rewrite E, Hd.
  - repeat apply conj.
    + reflexivity.
    + reflexivity.
    + discriminate.
    + intros Hfresh. now apply filter_all.
    + intros _ uuid2 year2.
      destruct (addMovie_cases uuid2 year2 g) as [[_ E2] | [Hd2 _]];
        [exact E2 | congruence].
  - repeat apply conj.
    + intros Heq. apply (f_equal (fun x => length (movies x))) in Heq.
      simpl in Heq. lia.
    + discriminate.
    + intros _. split; reflexivity.
    + intros Hfresh. unfold remove. simpl.
      rewrite filter_cons_False by (simpl; intros Hne; now apply Hne).
      now apply filter_all.
    + intros Hempty uuid2 year2. unfold addMovie. simpl.
      now apply Nat.ltb_lt in Hempty as ->.
Qed.

Lemma ids_Permutation g g' :
  movies g' ≡ₚ movies g -> NoDup (ids g) -> NoDup (ids g').
Proof.
  intros HP Hnd. unfold ids in *.
  change (map id ?l) with (id <$> l) in *. now rewrite HP.
Qed.

Lemma move_Permutation ident direction g :
  movies (move ident direction g) ≡ₚ movies g.
Proof.
  unfold move. destruct (_ || _); [reflexivity|]. apply swap_Permutation.
Qed.

Lemma act_keeps_ids_distinct g (o : Action) :
  admissible trim utf16_length localeCompare g [o] -> NoDup (ids g) ->
  NoDup (ids (act trim utf16_length localeCompare g o)).
Proof.
  intros [Ha _] Hnd. destruct o as [text|uuid y|ident d|ident|rand| |]; simpl.
  - exact Hnd.
  - unfold addMovie. destruct (_ <? _)%nat; [exact Hnd|].
    unfold ids. simpl. apply NoDup_cons. split; assumption.
  - eapply ids_Permutation; [apply move_Permutation | exact Hnd].
  - unfold ids, remove in *. simpl.
    change (map id ?l) with (id <$> l) in *.
    eapply sublist_NoDup; [exact Hnd|].
    apply fmap_sublist, sublist_filter.
  - eapply ids_Permutation; [|exact Hnd].
    apply shuffle_loop_Permutation.
  - eapply ids_Permutation; [apply sort_Permutation | exact Hnd].
  - eapply ids_Permutation; [apply sort_Permutation | exact Hnd].
Qed.

(** X20: the identifiers of the movies, which the page uses as keys of
    its list, stay distinct under every sequence of actions, as long as the
    identifiers [crypto.randomUUID()] hands out are new ones. *)
Theorem ids_stay_distinct (os : list Action) : forall g,
  NoDup (ids g) -> admissible trim utf16_length localeCompare g os ->
  NoDup (ids (acts trim utf16_length localeCompare os g)).
Proof.
  induction os as [|o os IH]; intros g Hnd Hadm; [exact Hnd|].
  destruct Hadm as [Ha Hl]. simpl. apply IH; [|exact Hl].
  apply act_keeps_ids_distinct; [split; [exact Ha | exact I] | exact Hnd].
Qed.

End WithPlatform.

(** *** The properties at concrete inputs *)

Lemma initial_ids_distinct : NoDup (ids initial).
Proof. apply (bool_decide_unpack _). vm_compute. exact I. Qed.

Lemma half_random : random (fun _ => 1 # 2)%Q.
Proof. intros k. split; [discriminate | reflexivity]. Qed.

Lemma by_length_consistent : consistent by_length.
Proof. unfold consistent, by_length. split; intros; lia. Qed.

Lemma move_at_the_edges_witness :
  move "m1" (-1) initial = initial
  ∧ move "m4" 1 initial = initial
  ∧ move "m9" 1 initial = initial.
Proof.
  destruct (move_at_the_edges initial "m1" (-1) initial_ids_distinct)
    as (_ & Hfirst & _).
  destruct (move_at_the_edges initial "m4" 1 initial_ids_distinct)
    as (_ & _ & Hlast).
  destruct (move_at_the_edges initial "m9" 1 initial_ids_distinct)
    as (Hnone & _ & _).
  split; [|split].
  - apply Hfirst. reflexivity.
  - apply Hlast. reflexivity.
  - apply Hnone. apply (bool_decide_unpack _). vm_compute. exact I.
Defined.

Lemma move_swaps_neighbours_witness :
  ids (move "m2" 1 initial) = ["m1"; "m3"; "m2"; "m4"]
  ∧ movies (move "m2" 1 initial) ≡ₚ movies initial.
Proof.
  destruct (move_swaps_neighbours initial "m2" 1 1%nat
              {| id := "m2"; title := "Terminator 2: Judgment Day";
                 year := 1991; genre := "Sci-Fi Action" |})
    as (_ & _ & _ & Hperm & _); [reflexivity | simpl; lia |].
  split; [reflexivity | exact Hperm].
Defined.

Lemma move_there_and_back_witness :
  move "m3" 1 (move "m3" (-1) initial) = initial
  ∧ move "m3" (-1) (move "m3" 1 initial) = initial.
Proof.
  destruct (move_there_and_back initial "m3" 2%nat
              {| id := "m3"; title := "The Matrix"; year := 1999;
                 genre := "Sci-Fi Action" |} eq_refl) as [Hup Hdown].
  split.
  - apply Hup. lia.
  - apply Hdown; [exact initial_ids_distinct | simpl; lia].
Defined.

Lemma remove_deletes_the_movie_witness :
  ids (remove "m2" initial) = ["m1"; "m3"; "m4"]
  ∧ remove "m9" initial = initial.
Proof.
  destruct (remove_deletes_the_movie initial "m2") as (_ & _ & Hone & _).
  destruct (remove_deletes_the_movie initial "m9") as (_ & Hnone & _).
  split.
  - unfold ids.
    rewrite (Hone
      [ {| id := "m1"; title := "Die Hard"; year := 1988; genre := "Action" |} ]
      {| id := "m2"; title := "Terminator 2: Judgment Day"; year := 1991;
         genre := "Sci-Fi Action" |}
      [ {| id := "m3"; title := "The Matrix"; year := 1999;
           genre := "Sci-Fi Action" |};
        {| id := "m4"; title := "Lethal Weapon"; year := 1987;
           genre := "Action" |} ]
      initial_ids_distinct eq_refl eq_refl).
    reflexivity.
  - apply Hnone. apply (bool_decide_unpack _). vm_compute. exact I.
Defined.

Lemma shuffle_permutes_witness :
  movies (shuffle (fun _ => 1 # 2)%Q initial) ≡ₚ movies initial.
Proof.
  apply (shuffle_permutes (fun _ => 1 # 2)%Q initial half_random).
Defined.

Lemma sortByTitle_sorts_witness :
  StronglySorted (by_title by_length) (movies (sortByTitle by_length initial)).
Proof.
  apply (sortByTitle_sorts by_length initial), by_length_consistent.
Defined.

Lemma addMovie_adds_witness :
  let g := {| movies := movies initial; newTitle := "Up" |} in
  let g' := addMovie (fun t => t) String.length "u1" 2024 g in
  ids g' = ["u1"; "m1"; "m2"; "m3"; "m4"]
  ∧ movies (remove "u1" g') = movies initial
  ∧ addMovie (fun t => t) String.length "u2" 2024 g' = g'.
Proof.
  intros g g'.
  destruct (addMovie_adds (fun t => t) String.length "u1" 2024 g)
    as (_ & Hgrows & Hback & Hagain).
  split; [|split].
  - apply Hgrows. reflexivity.
  - apply Hback. apply (bool_decide_unpack _). vm_compute. exact I.
  - apply Hagain. simpl. lia.
Defined.

Lemma ids_stay_distinct_witness :
  NoDup (ids (acts (fun t => t) String.length by_length
                [TypeTitle "Heat"; AddMovie "u1" 1995; Move "u1" 1;
                 Shuffle (fun _ => 1 # 2)%Q; SortByYear; Remove "m2";
                 SortByTitle]
                initial)).
Proof.
  apply (ids_stay_distinct (fun t => t) String.length by_length);
    [exact initial_ids_distinct|].
  simpl. repeat apply conj; try exact I; try apply half_random.
  apply (bool_decide_unpack _). vm_compute. exact I.
Defined.

End GalleryFacts.
